(** * Catalog generator (cmd/generator/main.go): strategies and reconciliation

    A shallow embedding of the generator's [main] loop, of its three source
    strategies and of [downloadAndHash], followed by the properties of the
    reconciliation engine.

    Conventions of the embedding.
    - Go [string]s are [string]s (sequences of bytes); [int64] and [int] are
      [Z]; the only arithmetic performed on them, [changesCount++], has its
      64-bit wrap-around written out.
    - A Go [map[string]T] is a [gmap string T]; reading a missing key yields
      the zero value, as in Go.
    - A function returning [(..., error)] returns an [outcome]; a Go panic
      is the third constructor of [outcome] and propagates up to [main].
    - Network calls are answered by an [Upstream] oracle and recorded in a
      trace of [Event]s, so that "no download happens" can be stated.
    - [log] output is not modelled.
    - The catalog file is modelled by the catalog it serialises
      ([encoding/json] is taken to round-trip catalog entries). *)

From Stdlib Require Import ZArith String Ascii List Bool Lia.
From stdpp Require Import base option gmap strings list fin_maps.

Local Open Scope Z_scope.
Local Open Scope string_scope.

(** ** Data structures *)

Record SourceApp := {
  ID : string;
  Name : string;
  Description : string;
  IconURL : string;
  PackageName : string;
  InstallType : string;
  Strategy : string;
  Config : gmap string string
}.

Module CatalogApp.
Record t := Build {
  ID : string;
  Name : string;
  Description : string;
  IconURL : string;
  PackageName : string;
  InstallType : string;
  Version : string;
  DownloadURL : string;
  Checksum : string;
  Size : Z
}.

(** The zero value of the struct, what [m[k]] yields for a missing key. *)
Definition zero : t := Build "" "" "" "" "" "" "" "" "" 0.
End CatalogApp.

Record Catalog := {
  LastUpdated : Z;
  Apps : gmap string CatalogApp.t
}.

Record Asset := {
  asset_Name : string;
  BrowserDownloadURL : string;
  asset_Size : Z
}.

Record GithubRelease := {
  TagName : string;
  Assets : list Asset
}.

(** ** The [strings] functions the program calls *)

Module strings.

Definition lower_ascii (c : ascii) : ascii :=
  let n := nat_of_ascii c in
  if (Nat.leb 65 n && Nat.leb n 90)%bool then ascii_of_nat (n + 32) else c.

(** [strings.ToLower] on the ASCII letters; other bytes are kept. *)
Fixpoint ToLower (s : string) : string :=
  match s with
  | EmptyString => EmptyString
  | String c r => String (lower_ascii c) (ToLower r)
  end.

Fixpoint HasPrefix (s prefix : string) : bool :=
  match prefix with
  | EmptyString => true
  | String p ps =>
      match s with
      | EmptyString => false
      | String c cs => (Ascii.eqb c p && HasPrefix cs ps)%bool
      end
  end.

Fixpoint Contains (s substr : string) : bool :=
  (HasPrefix s substr ||
   match s with
   | EmptyString => false
   | String _ r => Contains r substr
   end)%bool.

Fixpoint drop_bytes (n : nat) (s : string) : string :=
  match n, s with
  | O, _ => s
  | S n', String _ r => drop_bytes n' r
  | S _, EmptyString => EmptyString
  end.

Definition TrimPrefix (s prefix : string) : string :=
  if HasPrefix s prefix then drop_bytes (String.length prefix) s else s.

End strings.

(** ** Errors, panics and the trace of network calls *)

Inductive error :=
  | ErrTransport (msg : string)          (* err of client.Do / http.Get / io.Copy *)
  | ErrDecode (msg : string)             (* err of the JSON decoder *)
  | ErrGithubStatus (code : Z)           (* "github status: %d" *)
  | ErrAssetNotFound (assetFilter : string)
  | ErrStatusInvalid (code : Z)          (* "status invalido: %d" *)
  | ErrRegexFailed (finalURL : string)   (* "regex falhou na url: %s" *)
  | ErrUnknownStrategy (strategy : string)
  | ErrHttpStatus (code : Z).            (* "http status %d" *)

Inductive outcome (A : Type) :=
  | Ok (a : A)
  | Err (e : error)
  | Panic (msg : string).
Arguments Ok {A} a.
Arguments Err {A} e.
Arguments Panic {A} msg.

Record Request := {
  Method : string;
  URL : string;
  Header : list (string * string)
}.

Record Response := {
  StatusCode : Z;
  FinalURL : string;                  (* resp.Request.URL.String() *)
  Header_ContentLength : option Z;    (* the Content-Length header, if sent *)
  Body : list Byte.byte;
  BodyErr : option string             (* a read error after [Body] *)
}.

(** [resp.ContentLength] of net/http: the value of the length header, and
    [-1] when the length is unknown. *)
Definition ContentLength (resp : Response) : Z :=
  match Header_ContentLength resp with
  | Some n => n
  | None => -1
  end.

Inductive Event :=
  | EvDo (req : Request)     (* client.Do(req), the metadata requests *)
  | EvGet (url : string).    (* http.Get(url), the artifact download *)

Definition is_download (e : Event) : bool :=
  match e with
  | EvGet _ => true
  | EvDo _ => false
  end.

(** Computations that perform network calls: the calls made, in order, and
    how the computation ended. *)
Definition IO (A : Type) : Type := list Event * outcome A.

Definition ret {A} (a : A) : IO A := ([], Ok a).
Definition fail {A} (e : error) : IO A := ([], Err e).
Definition panic {A} (msg : string) : IO A := ([], Panic msg).

Definition bind {A B} (m : IO A) (f : A -> IO B) : IO B :=
  match m with
  | (t, Ok a) => let '(t', r) := f a in ((t ++ t')%list, r)
  | (t, Err e) => (t, Err e)
  | (t, Panic msg) => (t, Panic msg)
  end.

Declare Scope io_scope.
Delimit Scope io_scope with io.
Notation "x <- m ;; k" := (bind m (fun x => k))
  (at level 100, m at next level, right associativity) : io_scope.

(** ** What the program is run against *)

(** Library functions of the Go runtime that are left abstract. *)
Record GoLib := {
  sha256_hex : list Byte.byte -> string;       (* hex.EncodeToString(sha256(body)) *)
  (* json.NewDecoder(resp.Body).Decode(&rel), of the bytes read and the read error *)
  json_decode_release : list Byte.byte -> option string -> GithubRelease + string;
  url_valid : string -> bool;                  (* http.NewRequest accepts the URL *)
  regexp_valid : string -> bool;               (* regexp.Compile succeeds *)
  FindStringSubmatch : string -> string -> list string
}.

(** The process environment and the servers. *)
Record Upstream := {
  GITHUB_TOKEN : string;                       (* os.Getenv("GITHUB_TOKEN") *)
  client_Do : Request -> Response + string;    (* the client with the 10 s timeout *)
  http_Get : string -> Response + string
}.

(** The time of a run; a run is taken to stay within one day. *)
Record Clock := {
  Now : Z;            (* time.Now() *)
  Today : string      (* time.Now().Format("2006.01.02") *)
}.

(** ** The program *)

Section Generator.

Variable lib : GoLib.
Variable up : Upstream.

Local Open Scope io_scope.

(** [http.NewRequest]: [nil] when the URL does not parse. *)
Definition NewRequest (method url : string) : option Request :=
  if url_valid lib url
  then Some {| Method := method; URL := url; Header := [] |}
  else None.

(** [req.Header.Set(k, v)]; dereferencing a [nil] request panics. *)
Definition Header_Set (req : option Request) (k v : string) : IO (option Request) :=
  match req with
  | Some r =>
      ret (Some {| Method := Method r; URL := URL r;
                   Header := (Header r ++ [(k, v)])%list |})
  | None => panic "nil pointer dereference"
  end.

(** [client.Do(req)], again panicking on a [nil] request. *)
Definition Do (req : option Request) : IO Response :=
  match req with
  | Some r =>
      match client_Do up r with
      | inl resp => ([EvDo r], Ok resp)
      | inr msg => ([EvDo r], Err (ErrTransport msg))
      end
  | None => panic "nil pointer dereference"
  end.

Definition Get (url : string) : IO Response :=
  match http_Get up url with
  | inl resp => ([EvGet url], Ok resp)
  | inr msg => ([EvGet url], Err (ErrTransport msg))
  end.

(** The loop over [rel.Assets] of [checkGithub]. *)
Fixpoint select_asset (version assetFilter : string) (assets : list Asset)
  : IO (string * string * Z) :=
  match assets with
  | [] => fail (ErrAssetNotFound assetFilter)
  | asset :: rest =>
      if strings.Contains (strings.ToLower (asset_Name asset)) assetFilter
      then ret (version, BrowserDownloadURL asset, asset_Size asset)
      else select_asset version assetFilter rest
  end.

Definition checkGithub (repo assetFilter : string) : IO (string * string * Z) :=
  let url := "https://api.github.com/repos/" +:+ repo +:+ "/releases/latest" in
  let req := NewRequest "GET" url in
  req <- (if negb (String.eqb (GITHUB_TOKEN up) "")
          then Header_Set req "Authorization" ("token " +:+ GITHUB_TOKEN up)
          else ret req) ;;
  resp <- Do req ;;
  if negb (Z.eqb (StatusCode resp) 200) then fail (ErrGithubStatus (StatusCode resp))
  else
    match json_decode_release lib (Body resp) (BodyErr resp) with
    | inr msg => fail (ErrDecode msg)
    | inl rel =>
        let version := strings.TrimPrefix (TagName rel) "v" in
        select_asset version assetFilter (Assets rel)
    end.

(** [regexp.MustCompile]: panics on a pattern that does not compile. *)
Definition MustCompile (pattern : string) : IO string :=
  if regexp_valid lib pattern then ret pattern
  else panic ("regexp: Compile(" +:+ pattern +:+ "): error parsing regexp").

Definition checkDirectHead (startURL versionRegex : string)
  : IO (string * string * Z) :=
  let req := NewRequest "HEAD" startURL in
  req <- Header_Set req "User-Agent"
           "Mozilla/5.0 (X11; Linux x86_64) AppleWebKit/537.36" ;;
  resp <- Do req ;;
  if negb (Z.eqb (StatusCode resp) 200) then fail (ErrStatusInvalid (StatusCode resp))
  else
    let finalURL := FinalURL resp in
    let size := ContentLength resp in
    re <- MustCompile versionRegex ;;
    let matches := FindStringSubmatch lib re finalURL in
    if Z.ltb (Z.of_nat (length matches)) 2 then fail (ErrRegexFailed finalURL)
    else ret (nth 1 matches "", finalURL, size).

(** [src.Config[k]]: the empty string for a missing key. *)
Definition config (src : SourceApp) (k : string) : string :=
  default "" (Config src !! k).

Definition checkStrategy (clock : Clock) (src : SourceApp)
  : IO (string * string * Z) :=
  if String.eqb (Strategy src) "github_release" then
    checkGithub (config src "repo") (config src "asset_filter")
  else if String.eqb (Strategy src) "direct_url_head" then
    checkDirectHead (config src "url") (config src "regex")
  else if String.eqb (Strategy src) "direct_static" then
    ret (Today clock, config src "url", 0)
  else fail (ErrUnknownStrategy (Strategy src)).

Definition downloadAndHash (url : string) : IO (string * Z) :=
  resp <- Get url ;;
  if negb (Z.eqb (StatusCode resp) 200) then fail (ErrHttpStatus (StatusCode resp))
  else
    match BodyErr resp with
    | Some msg => fail (ErrTransport msg)
    | None =>
        let size := Z.of_nat (length (Body resp)) in
        let checksum := sha256_hex lib (Body resp) in
        ret (checksum, size)
    end.

(** *** [main] *)

(** [changesCount++] on a 64-bit [int]. *)
Definition wrap_int (z : Z) : Z := (z + 2 ^ 63) mod 2 ^ 64 - 2 ^ 63.

(** The variables the loop of [main] updates, and the calls made so far. *)
Record LoopState := {
  newCatalog : Catalog;
  changesCount : Z;
  trace : list Event
}.

(** [newCatalog.Apps[id] = app] *)
Definition store (id : string) (app : CatalogApp.t) (st : LoopState) : LoopState :=
  {| newCatalog := {| LastUpdated := LastUpdated (newCatalog st);
                      Apps := <[id := app]> (Apps (newCatalog st)) |};
     changesCount := changesCount st;
     trace := trace st |}.

(** [changesCount++] *)
Definition count_change (st : LoopState) : LoopState :=
  {| newCatalog := newCatalog st;
     changesCount := wrap_int (changesCount st + 1);
     trace := trace st |}.

Definition performed (evs : list Event) (st : LoopState) : LoopState :=
  {| newCatalog := newCatalog st;
     changesCount := changesCount st;
     trace := (trace st ++ evs)%list |}.

Inductive Flow :=
  | Continue (st : LoopState)             (* on to the next application *)
  | Crash (msg : string) (st : LoopState). (* a panic unwinds [main] *)

(** One iteration of [for _, src := range sources]. *)
Definition loop_body (clock : Clock) (oldCatalog : Catalog) (src : SourceApp)
    (st : LoopState) : Flow :=
  let '(evs, r) := checkStrategy clock src in
  let st := performed evs st in
  match r with
  | Panic msg => Crash msg st
  | Err _ =>
      match Apps oldCatalog !! ID src with
      | Some old => Continue (store (ID src) old st)
      | None => Continue st
      end
  | Ok (onlineVer, onlineURL, onlineSize) =>
      let forceCheck := String.eqb (Strategy src) "direct_static" in
      let oldApp := default CatalogApp.zero (Apps oldCatalog !! ID src) in
      let exists_ := bool_decide (is_Some (Apps oldCatalog !! ID src)) in
      if (exists_ && negb forceCheck
          && String.eqb (CatalogApp.Version oldApp) onlineVer)%bool
      then Continue (store (ID src) oldApp st)
      else
        let '(evs, d) := downloadAndHash onlineURL in
        let st := performed evs st in
        match d with
        | Panic msg => Crash msg st
        | Err _ =>
            if exists_ then Continue (store (ID src) oldApp st) else Continue st
        | Ok (checksum, downloadedSize) =>
            if (forceCheck && exists_
                && String.eqb (CatalogApp.Checksum oldApp) checksum)%bool
            then Continue (store (ID src) oldApp st)
            else
              let finalSize :=
                if Z.eqb onlineSize 0 then downloadedSize else onlineSize in
              let newApp :=
                {| CatalogApp.ID := ID src;
                   CatalogApp.Name := Name src;
                   CatalogApp.Description := Description src;
                   CatalogApp.IconURL := IconURL src;
                   CatalogApp.PackageName := PackageName src;
                   CatalogApp.InstallType := InstallType src;
                   CatalogApp.Version := onlineVer;
                   CatalogApp.DownloadURL := onlineURL;
                   CatalogApp.Checksum := checksum;
                   CatalogApp.Size := finalSize |} in
              Continue (count_change (store (ID src) newApp st))
        end
  end.

Fixpoint for_each (clock : Clock) (oldCatalog : Catalog)
    (sources : list SourceApp) (st : LoopState) : Flow :=
  match sources with
  | [] => Continue st
  | src :: rest =>
      match loop_body clock oldCatalog src st with
      | Continue st' => for_each clock oldCatalog rest st'
      | Crash msg st' => Crash msg st'
      end
  end.

(** The catalog file: absent, or the catalog last saved. [loadCatalog]
    returns the entries only, the timestamp stays the zero time. *)
Definition loadCatalog (file : option Catalog) : Catalog :=
  match file with
  | None => {| LastUpdated := 0; Apps := ∅ |}
  | Some c => {| LastUpdated := 0; Apps := Apps c |}
  end.

Definition saveCatalog (catalog : Catalog) : option Catalog := Some catalog.

Inductive RunResult :=
  | Finished (st : LoopState) (saved : bool)
  | Panicked (msg : string) (st : LoopState).

(** [main], from the loaded source list and catalog file to the way the
    run ended and the catalog file it leaves behind. *)
Definition main (clock : Clock) (sources : list SourceApp)
    (file : option Catalog) : RunResult * option Catalog :=
  let oldCatalog := loadCatalog file in
  let st0 := {| newCatalog := {| LastUpdated := Now clock; Apps := ∅ |};
                changesCount := 0;
                trace := [] |} in
  match for_each clock oldCatalog sources st0 with
  | Crash msg st => (Panicked msg st, file)
  | Continue st =>
      if (Z.ltb 0 (changesCount st)
          || Z.eqb (Z.of_nat (size (Apps oldCatalog))) 0)%bool
      then (Finished st true, saveCatalog (newCatalog st))
      else (Finished st false, file)
  end.

End Generator.

(** ** The decision taken for one application

    [loop_body] reads the old catalog only at [src.ID] and touches the new one
    only there.  [decide_app] is that decision on its own: from the prior
    entry of the application (if any) to the calls made and a verdict.
    [loop_body_decide] below shows that [loop_body] is [decide_app] applied
    to the loop state. *)

Inductive Verdict :=
  | VCrash (msg : string)          (* the iteration panics *)
  | VKeep                          (* skip or carry forward: prior entry, or nothing *)
  | VUpdate (app : CatalogApp.t).  (* the update path *)

Definition updated_entry (src : SourceApp) (onlineVer onlineURL checksum : string)
    (onlineSize downloadedSize : Z) : CatalogApp.t :=
  {| CatalogApp.ID := ID src;
     CatalogApp.Name := Name src;
     CatalogApp.Description := Description src;
     CatalogApp.IconURL := IconURL src;
     CatalogApp.PackageName := PackageName src;
     CatalogApp.InstallType := InstallType src;
     CatalogApp.Version := onlineVer;
     CatalogApp.DownloadURL := onlineURL;
     CatalogApp.Checksum := checksum;
     CatalogApp.Size := if Z.eqb onlineSize 0 then downloadedSize else onlineSize |}.

Definition decide_app (lib : GoLib) (up : Upstream) (clock : Clock)
    (prior : option CatalogApp.t) (src : SourceApp) : list Event * Verdict :=
  match checkStrategy lib up clock src with
  | (evs, Panic msg) => (evs, VCrash msg)
  | (evs, Err _) => (evs, VKeep)
  | (evs, Ok (onlineVer, onlineURL, onlineSize)) =>
      let forceCheck := String.eqb (Strategy src) "direct_static" in
      let oldApp := default CatalogApp.zero prior in
      let exists_ := bool_decide (is_Some prior) in
      if (exists_ && negb forceCheck
          && String.eqb (CatalogApp.Version oldApp) onlineVer)%bool
      then (evs, VKeep)
      else
        match downloadAndHash lib up onlineURL with
        | (evs', Panic msg) => ((evs ++ evs')%list, VCrash msg)
        | (evs', Err _) => ((evs ++ evs')%list, VKeep)
        | (evs', Ok (checksum, downloadedSize)) =>
            if (forceCheck && exists_
                && String.eqb (CatalogApp.Checksum oldApp) checksum)%bool
            then ((evs ++ evs')%list, VKeep)
            else ((evs ++ evs')%list,
                  VUpdate (updated_entry src onlineVer onlineURL checksum
                             onlineSize downloadedSize))
        end
  end.

(** The effect of a verdict on the loop state. *)
Definition apply_verdict (prior : option CatalogApp.t) (id : string)
    (d : list Event * Verdict) (st : LoopState) : Flow :=
  let st := performed d.1 st in
  match d.2 with
  | VCrash msg => Crash msg st
  | VKeep =>
      match prior with
      | Some old => Continue (store id old st)
      | None => Continue st
      end
  | VUpdate app => Continue (count_change (store id app st))
  end.

(** The entry an application has in the new catalog after its iteration,
    when it had the entry [slot] there before. *)
Definition entry_after (prior slot : option CatalogApp.t) (v : Verdict)
    : option CatalogApp.t :=
  match v with
  | VUpdate app => Some app
  | VKeep => match prior with Some old => Some old | None => slot end
  | VCrash _ => slot
  end.

Definition is_update (v : Verdict) : bool :=
  match v with VUpdate _ => true | _ => false end.

(** The metadata of an entry and of a source descriptor. *)
Definition entry_metadata (a : CatalogApp.t) : string * string * string * string * string :=
  (CatalogApp.Name a, CatalogApp.Description a, CatalogApp.IconURL a,
   CatalogApp.PackageName a, CatalogApp.InstallType a).

Definition source_metadata (s : SourceApp) : string * string * string * string * string :=
  (Name s, Description s, IconURL s, PackageName s, InstallType s).

(** The state [main] starts its loop in. *)
Definition initial_state (clock : Clock) : LoopState :=
  {| newCatalog := {| LastUpdated := Now clock; Apps := ∅ |};
     changesCount := 0;
     trace := [] |}.

(** The verdict on an application of the source list in a run against the
    old catalog [old]. *)
Definition verdict_of (lib : GoLib) (up : Upstream) (clock : Clock)
    (old : Catalog) (src : SourceApp) : Verdict :=
  (decide_app lib up clock (Apps old !! ID src) src).2.

(** How many applications of the list take the update path. *)
Definition updates (lib : GoLib) (up : Upstream) (clock : Clock)
    (old : Catalog) (sources : list SourceApp) : nat :=
  length (filter (λ src, is_update (verdict_of lib up clock old src) = true) sources).

(** Upper-case ASCII letters, the bytes [strings.ToLower] changes. *)
Definition is_upper (c : ascii) : bool :=
  (Nat.leb 65 (nat_of_ascii c) && Nat.leb (nat_of_ascii c) 90)%bool.

Fixpoint has_upper (s : string) : bool :=
  match s with
  | EmptyString => false
  | String c r => (is_upper c || has_upper r)%bool
  end.

(** The test [checkGithub] applies to each asset. *)
Definition asset_matches (assetFilter : string) (asset : Asset) : bool :=
  strings.Contains (strings.ToLower (asset_Name asset)) assetFilter.

(** What a run of [main] left in the loop state. *)
Definition final_state (r : RunResult * option Catalog) : LoopState :=
  match r.1 with
  | Finished st _ => st
  | Panicked _ st => st
  end.

(** A computation that downloads nothing. *)
Definition quiet {A} (m : IO A) : Prop :=
  Forall (λ e, is_download e = false) m.1.

(** ** A small world to run the program in *)

Module Demo.

(** Stands in for SHA-256: the engine only compares digests for equality. *)
Definition digest (body : list Byte.byte) : string := string_of_list_byte body.

Definition release : GithubRelease :=
  {| TagName := "v1.2.0";
     Assets := [ {| asset_Name := "App-Linux.deb";
                    BrowserDownloadURL := "https://example.org/app.deb";
                    asset_Size := 1000 |} ] |}.

Definition lib : GoLib :=
  {| sha256_hex := digest;
     json_decode_release := λ body _,
       match body with
       | [] => inr "unexpected end of JSON input"
       | _ => inl release
       end;
     url_valid := λ _, true;
     regexp_valid := λ pattern, negb (String.eqb pattern "(");
     FindStringSubmatch := λ re s,
       if strings.Contains s "/v2.0/" then ["/v2.0/"; "2.0"] else [] |}.

Definition response (body : string) : Response :=
  {| StatusCode := 200;
     FinalURL := "";
     Header_ContentLength := None;
     Body := list_byte_of_string body;
     BodyErr := None |}.

(** The release API answers for acme/app; a HEAD of /latest is redirected
    to the 2.0 tarball and carries no Content-Length; three artifacts can
    be downloaded; every other host is unreachable. *)
Definition up : Upstream :=
  {| GITHUB_TOKEN := "";
     client_Do := λ req,
       if String.eqb (URL req) "https://api.github.com/repos/acme/app/releases/latest"
       then inl (response "{}")
       else if String.eqb (URL req) "https://example.org/latest"
       then inl {| StatusCode := 200;
                   FinalURL := "https://example.org/v2.0/tool.tar.gz";
                   Header_ContentLength := None;
                   Body := [];
                   BodyErr := None |}
       else inr "no such host";
     http_Get := λ url,
       if String.eqb url "https://example.org/app.deb" then inl (response "deb-bytes")
       else if String.eqb url "https://example.org/v2.0/tool.tar.gz"
       then inl (response "tarball")
       else if String.eqb url "https://example.org/chrome.deb"
       then inl (response "chrome-bytes")
       else inr "no such host" |}.

Definition clock : Clock := {| Now := 1793404800; Today := "2026.10.31" |}.
Definition next_day : Clock := {| Now := 1793491200; Today := "2026.11.01" |}.

Definition source (id name strategy : string) (cfg : list (string * string))
    : SourceApp :=
  {| ID := id; Name := name; Description := ""; IconURL := "";
     PackageName := id; InstallType := "deb";
     Strategy := strategy; Config := list_to_map cfg |}.

Definition github_app : SourceApp :=
  source "app" "App" "github_release"
    [("repo", "acme/app"); ("asset_filter", "linux")].

Definition github_app_Linux : SourceApp :=
  source "app" "App" "github_release"
    [("repo", "acme/app"); ("asset_filter", "Linux")].

Definition github_gone : SourceApp :=
  source "gone" "Gone" "github_release"
    [("repo", "acme/gone"); ("asset_filter", "linux")].

Definition head_app : SourceApp :=
  source "tool" "Tool" "direct_url_head"
    [("url", "https://example.org/latest"); ("regex", "/v([0-9.]+)/")].

Definition head_bad_regex : SourceApp :=
  source "tool" "Tool" "direct_url_head"
    [("url", "https://example.org/latest"); ("regex", "(")].

Definition head_bad_regex_down : SourceApp :=
  source "tool" "Tool" "direct_url_head"
    [("url", "https://down.example.org/latest"); ("regex", "(")].

Definition chrome : SourceApp :=
  source "chrome" "Chrome" "direct_static"
    [("url", "https://example.org/chrome.deb")].

Definition entry (id name version url checksum : string) (size : Z)
    : CatalogApp.t :=
  {| CatalogApp.ID := id; CatalogApp.Name := name;
     CatalogApp.Description := ""; CatalogApp.IconURL := "";
     CatalogApp.PackageName := id; CatalogApp.InstallType := "deb";
     CatalogApp.Version := version; CatalogApp.DownloadURL := url;
     CatalogApp.Checksum := checksum; CatalogApp.Size := size |}.

Definition chrome_prior : CatalogApp.t :=
  entry "chrome" "Chromium" "2026.01.15" "https://example.org/chrome.deb"
    "chrome-bytes" 12.

Definition chrome_stale : CatalogApp.t :=
  entry "chrome" "Chromium" "2026.01.15" "https://example.org/chrome.deb"
    "older-bytes" 11.

Definition tool_prior : CatalogApp.t :=
  entry "tool" "Tool" "2.0" "https://example.org/v2.0/tool.tar.gz" "tarball" 7.

Definition github_as_tool : SourceApp :=
  source "tool" "Tool" "github_release"
    [("repo", "acme/app"); ("asset_filter", "linux")].

Definition gone_prior : CatalogApp.t :=
  entry "gone" "Gone" "0.9" "https://example.org/gone.deb" "gone-bytes" 10.

Definition catalog_file (entries : list (string * CatalogApp.t)) : option Catalog :=
  Some {| LastUpdated := 1790000000; Apps := list_to_map entries |}.

End Demo.

(** ** Vocabulary for the properties of a whole run *)

(** The calls made by the iteration of one application. *)
Definition app_events (lib : GoLib) (up : Upstream) (clock : Clock)
    (old : Catalog) (src : SourceApp) : list Event :=
  (decide_app lib up clock (Apps old !! ID src) src).1.

(** The loop state an iteration, or the loop, ends in. *)
Definition flow_state (f : Flow) : LoopState :=
  match f with
  | Continue st => st
  | Crash _ st => st
  end.

(** The number of artifact downloads in a trace. *)
Definition downloads (t : list Event) : nat :=
  length (filter (λ e, is_download e = true) t).

(** The test of [main] that skips the download: a prior entry, a strategy
    other than direct_static, and the version resolved again. *)
Definition version_unchanged (prior : option CatalogApp.t) (src : SourceApp)
    (onlineVer : string) : bool :=
  match prior with
  | Some oldApp =>
      (negb (String.eqb (Strategy src) "direct_static")
       && String.eqb (CatalogApp.Version oldApp) onlineVer)%bool
  | None => false
  end.

(** Every entry is stored under the ID it carries. *)
Definition well_keyed (apps : gmap string CatalogApp.t) : Prop :=
  ∀ id entry, apps !! id = Some entry → CatalogApp.ID entry = id.

(** The request [checkGithub] sends for a repository. *)
Definition github_request (up : Upstream) (repo : string) : Request :=
  {| Method := "GET";
     URL := "https://api.github.com/repos/" +:+ repo +:+ "/releases/latest";
     Header := if String.eqb (GITHUB_TOKEN up) "" then []
               else [("Authorization", "token " +:+ GITHUB_TOKEN up)] |}.

(** The request [checkDirectHead] sends for a starting URL. *)
Definition head_request (startURL : string) : Request :=
  {| Method := "HEAD";
     URL := startURL;
     Header := [("User-Agent",
                 "Mozilla/5.0 (X11; Linux x86_64) AppleWebKit/537.36")] |}.

(** ** A second world: a strict URL parser and a token *)

Module Demo2.

(** As [Demo.lib], with a URL parser that rejects a bad escape. *)
Definition lib : GoLib :=
  {| sha256_hex := Demo.digest;
     json_decode_release := json_decode_release Demo.lib;
     url_valid := λ url, negb (strings.Contains url "%zz");
     regexp_valid := regexp_valid Demo.lib;
     FindStringSubmatch := FindStringSubmatch Demo.lib |}.

(** As [Demo.up], with a token in the environment. *)
Definition up : Upstream :=
  {| GITHUB_TOKEN := "s3cret";
     client_Do := client_Do Demo.up;
     http_Get := http_Get Demo.up |}.

Definition head_bad_url : SourceApp :=
  Demo.source "tool" "Tool" "direct_url_head"
    [("url", "https://example.org/%zz"); ("regex", "/v([0-9.]+)/")].

Definition typo : SourceApp :=
  Demo.source "gone" "Gone" "github_releases"
    [("repo", "acme/app"); ("asset_filter", "linux")].

Definition github_APP : SourceApp :=
  Demo.source "app" "App" "github_release"
    [("repo", "acme/app"); ("asset_filter", "app-linux")].

End Demo2.

(** * Properties *)

Section Facts.

Context (lib : GoLib) (up : Upstream).

Implicit Types (clock : Clock) (src : SourceApp) (st : LoopState)
  (old : Catalog) (prior : option CatalogApp.t).

(** ** The loop state *)

Lemma performed_app evs evs' st :
  performed evs' (performed evs st) = performed (evs ++ evs')%list st.
Proof. unfold performed; simpl. by rewrite app_assoc. Qed.

Lemma exists_Some (a : CatalogApp.t) : bool_decide (is_Some (Some a)) = true.
Proof. apply bool_decide_eq_true. eauto. Qed.

Lemma exists_None : bool_decide (is_Some (@None CatalogApp.t)) = false.
Proof. apply bool_decide_eq_false. intros [? ?]; discriminate. Qed.

(** [loop_body] is the decision for the application, applied to the state. *)
Lemma loop_body_decide clock old src st :
  loop_body lib up clock old src st =
  apply_verdict (Apps old !! ID src) (ID src)
    (decide_app lib up clock (Apps old !! ID src) src) st.
Proof.
  unfold loop_body, decide_app, apply_verdict.
  destruct (checkStrategy lib up clock src) as [evs [[[ver url] size]|e|msg]];
    simpl; [|by destruct (Apps old !! ID src)|done].
  destruct (Apps old !! ID src) as [oldApp|] eqn:Hold; simpl.
  - rewrite ?exists_Some; simpl.
    destruct (negb _ && _)%bool; simpl; [done|].
    destruct (downloadAndHash lib up url) as [evs' [[sum dsz]|e|msg]];
      simpl; rewrite ?performed_app; try done.
    rewrite andb_true_r.
    by destruct (_ && _)%bool.
  - rewrite ?exists_None; simpl.
    destruct (downloadAndHash lib up url) as [evs' [[sum dsz]|e|msg]];
      simpl; rewrite ?performed_app; try done.
    by rewrite andb_false_r.
Qed.

(** ** One iteration *)

Lemma apply_verdict_spec prior id d st st' :
  apply_verdict prior id d st = Continue st' →
  Apps (newCatalog st') !! id
    = entry_after prior (Apps (newCatalog st) !! id) d.2
  ∧ (∀ id', id' ≠ id →
       Apps (newCatalog st') !! id' = Apps (newCatalog st) !! id')
  ∧ changesCount st'
    = (if is_update d.2 then wrap_int (changesCount st + 1) else changesCount st)
  ∧ trace st' = (trace st ++ d.1)%list
  ∧ LastUpdated (newCatalog st') = LastUpdated (newCatalog st).
Proof.
  unfold apply_verdict. destruct d as [evs [msg| |app]]; simpl; [done| |].
  - destruct prior as [o|]; intros [= <-]; simpl.
    + rewrite lookup_insert_eq. repeat split; try done.
      intros id' Hne. by rewrite lookup_insert_ne.
    + done.
  - intros [= <-]; simpl. rewrite lookup_insert_eq. repeat split; try done.
    intros id' Hne. by rewrite lookup_insert_ne.
Qed.

Lemma apply_verdict_crash prior id d st msg st' :
  apply_verdict prior id d st = Crash msg st' → d.2 = VCrash msg.
Proof.
  unfold apply_verdict. destruct d as [evs [m| |app]]; simpl.
  - by intros [= -> _].
  - by destruct prior.
  - done.
Qed.

Lemma loop_body_spec clock old src st st' :
  loop_body lib up clock old src st = Continue st' →
  Apps (newCatalog st') !! ID src
    = entry_after (Apps old !! ID src) (Apps (newCatalog st) !! ID src)
        (verdict_of lib up clock old src)
  ∧ (∀ id', id' ≠ ID src →
       Apps (newCatalog st') !! id' = Apps (newCatalog st) !! id')
  ∧ changesCount st'
    = (if is_update (verdict_of lib up clock old src)
       then wrap_int (changesCount st + 1) else changesCount st)
  ∧ trace st' = (trace st ++ (decide_app lib up clock (Apps old !! ID src) src).1)%list
  ∧ LastUpdated (newCatalog st') = LastUpdated (newCatalog st).
Proof. rewrite loop_body_decide. apply apply_verdict_spec. Qed.

Lemma loop_body_crash clock old src st msg st' :
  loop_body lib up clock old src st = Crash msg st' →
  verdict_of lib up clock old src = VCrash msg.
Proof. rewrite loop_body_decide. apply apply_verdict_crash. Qed.

(** ** The whole loop *)

Lemma for_each_notin clock old sources st st' id :
  for_each lib up clock old sources st = Continue st' →
  id ∉ ID <$> sources →
  Apps (newCatalog st') !! id = Apps (newCatalog st) !! id.
Proof.
  revert st. induction sources as [|src rest IH]; intros st; simpl.
  - by intros [= <-].
  - destruct (loop_body lib up clock old src st) as [st1|] eqn:E; [|done].
    intros Hrest Hid. apply not_elem_of_cons in Hid as [Hne Hid].
    rewrite (IH _ Hrest Hid).
    apply loop_body_spec in E as (_ & Hother & _). by apply Hother.
Qed.

Lemma for_each_in clock old sources st st' src :
  NoDup (ID <$> sources) →
  src ∈ sources →
  for_each lib up clock old sources st = Continue st' →
  Apps (newCatalog st') !! ID src
    = entry_after (Apps old !! ID src) (Apps (newCatalog st) !! ID src)
        (verdict_of lib up clock old src).
Proof.
  revert st. induction sources as [|s rest IH]; intros st; simpl.
  - intros _ Hin. by apply elem_of_nil in Hin.
  - intros Hnd Hin. apply NoDup_cons in Hnd as [Hfresh Hnd].
    destruct (loop_body lib up clock old s st) as [st1|] eqn:E; [|done].
    intros Hrest. apply elem_of_cons in Hin as [->|Hin].
    + rewrite (for_each_notin _ _ _ _ _ _ Hrest Hfresh).
      by apply loop_body_spec in E as (Hsame & _).
    + rewrite (IH _ Hnd Hin Hrest).
      apply loop_body_spec in E as (_ & Hother & _).
      rewrite Hother; [done|].
      intros Heq. apply Hfresh. rewrite <- Heq.
      apply list_elem_of_fmap. eauto.
Qed.

Lemma for_each_no_crash clock old sources st st' src :
  for_each lib up clock old sources st = Continue st' →
  src ∈ sources →
  ∀ msg, verdict_of lib up clock old src ≠ VCrash msg.
Proof.
  revert st. induction sources as [|s rest IH]; intros st; simpl.
  - intros _ Hin. by apply elem_of_nil in Hin.
  - destruct (loop_body lib up clock old s st) as [st1|] eqn:E; [|done].
    intros Hrest Hin msg Hv. apply elem_of_cons in Hin as [->|Hin].
    + rewrite loop_body_decide in E. unfold verdict_of in Hv.
      unfold apply_verdict in E. by rewrite Hv in E.
    + by apply (IH _ Hrest Hin msg).
Qed.

(** ** The calls made by the strategies *)

Lemma quiet_nil {A} (r : outcome A) : quiet ([], r).
Proof. by constructor. Qed.

Ltac quiet_done := first [ apply quiet_nil | by unfold quiet; simpl; repeat constructor ].

Lemma quiet_bind {A B} (m : IO A) (f : A → IO B) :
  quiet m → (∀ a, quiet (f a)) → quiet (bind m f).
Proof.
  unfold quiet, bind. destruct m as [t [a|e|msg]]; simpl; try done.
  intros Ht Hf. specialize (Hf a). destruct (f a) as [t' r]; simpl in *.
  by apply Forall_app.
Qed.

Lemma quiet_Do req : quiet (Do up req).
Proof.
  unfold Do. destruct req as [r|]; [|quiet_done].
  destruct (client_Do up r); quiet_done.
Qed.

Lemma quiet_Header_Set req k v : quiet (Header_Set req k v).
Proof. destruct req; quiet_done. Qed.

Lemma quiet_select_asset version assetFilter assets :
  quiet (select_asset version assetFilter assets).
Proof.
  induction assets as [|a rest IH]; simpl; [quiet_done|].
  destruct (strings.Contains _ _); [quiet_done|done].
Qed.

Lemma quiet_checkGithub repo assetFilter :
  quiet (checkGithub lib up repo assetFilter).
Proof.
  unfold checkGithub. apply quiet_bind.
  - destruct (negb _); [apply quiet_Header_Set|quiet_done].
  - intros req. apply quiet_bind; [apply quiet_Do|].
    intros resp. destruct (negb _); [quiet_done|].
    destruct (json_decode_release _ _ _); [apply quiet_select_asset|quiet_done].
Qed.

Lemma quiet_checkDirectHead startURL versionRegex :
  quiet (checkDirectHead lib up startURL versionRegex).
Proof.
  unfold checkDirectHead. apply quiet_bind; [apply quiet_Header_Set|].
  intros req. apply quiet_bind; [apply quiet_Do|].
  intros resp. destruct (negb _); [quiet_done|].
  apply quiet_bind.
  - unfold MustCompile. destruct (regexp_valid _ _); quiet_done.
  - intros re. destruct (Z.ltb _ _); quiet_done.
Qed.

(** Resolving a version never downloads the artifact. *)
Lemma quiet_checkStrategy clock src : quiet (checkStrategy lib up clock src).
Proof.
  unfold checkStrategy.
  destruct (String.eqb _ _); [apply quiet_checkGithub|].
  destruct (String.eqb _ _); [apply quiet_checkDirectHead|].
  destruct (String.eqb _ _); quiet_done.
Qed.

Lemma checkStrategy_static clock src :
  Strategy src = "direct_static" →
  checkStrategy lib up clock src = ([], Ok (Today clock, config src "url", 0)).
Proof. intros H. unfold checkStrategy. by rewrite H. Qed.

(** Only [direct_static] reads the clock. *)
Lemma checkStrategy_clock clock clock' src :
  Strategy src ≠ "direct_static" →
  checkStrategy lib up clock src = checkStrategy lib up clock' src.
Proof.
  intros H. unfold checkStrategy.
  destruct (String.eqb _ "github_release"); [done|].
  destruct (String.eqb _ "direct_url_head"); [done|].
  destruct (String.eqb_spec (Strategy src) "direct_static"); done.
Qed.

Lemma downloadAndHash_no_panic url evs msg :
  downloadAndHash lib up url ≠ (evs, Panic msg).
Proof.
  unfold downloadAndHash, Get, bind.
  destruct (http_Get up url) as [resp|m]; [|done].
  destruct (negb _); [done|]. by destruct (BodyErr resp).
Qed.

(** ** The paths of one decision *)

Lemma decide_app_strategy_err clock prior src evs e :
  checkStrategy lib up clock src = (evs, Err e) →
  decide_app lib up clock prior src = (evs, VKeep).
Proof. intros H. unfold decide_app. by rewrite H. Qed.

Lemma decide_app_skip_version clock src p ver url size evs :
  checkStrategy lib up clock src = (evs, Ok (ver, url, size)) →
  Strategy src ≠ "direct_static" →
  CatalogApp.Version p = ver →
  decide_app lib up clock (Some p) src = (evs, VKeep).
Proof.
  intros H Hs Hv. unfold decide_app. rewrite H; simpl.
  apply String.eqb_neq in Hs. rewrite Hs; simpl.
  apply String.eqb_eq in Hv. by rewrite Hv.
Qed.

Lemma decide_app_download_err clock prior src ver url size evs evs' e :
  checkStrategy lib up clock src = (evs, Ok (ver, url, size)) →
  downloadAndHash lib up url = (evs', Err e) →
  decide_app lib up clock prior src = (evs, VKeep)
  ∨ decide_app lib up clock prior src = ((evs ++ evs')%list, VKeep).
Proof.
  intros H Hd. unfold decide_app. rewrite H, Hd.
  destruct (_ && _)%bool; eauto.
Qed.

Lemma decide_app_static_same clock src p evs checksum size :
  Strategy src = "direct_static" →
  downloadAndHash lib up (config src "url") = (evs, Ok (checksum, size)) →
  CatalogApp.Checksum p = checksum →
  decide_app lib up clock (Some p) src = (evs, VKeep).
Proof.
  intros Hs Hd Hc. unfold decide_app.
  rewrite (checkStrategy_static _ _ Hs), Hs, Hd; simpl.
  apply String.eqb_eq in Hc. by rewrite Hc.
Qed.

(** On the update path the entry is assembled from the descriptor, the
    resolved version and URL, and the digest of the download. *)
Lemma decide_app_update clock prior src evs app :
  decide_app lib up clock prior src = (evs, VUpdate app) →
  ∃ evs1 evs2 ver url size checksum downloaded,
    checkStrategy lib up clock src = (evs1, Ok (ver, url, size))
    ∧ downloadAndHash lib up url = (evs2, Ok (checksum, downloaded))
    ∧ evs = (evs1 ++ evs2)%list
    ∧ app = updated_entry src ver url checksum size downloaded.
Proof.
  unfold decide_app.
  destruct (checkStrategy lib up clock src) as [evs1 [[[ver url] size]|e|msg]];
    [|done..].
  destruct (_ && _)%bool; [done|].
  destruct (downloadAndHash lib up url) as [evs2 [[sum dsz]|e|msg]] eqn:Hd;
    [|done..].
  destruct (_ && _)%bool; [done|].
  intros [= <- <-]. by exists evs1, evs2, ver, url, size, sum, dsz.
Qed.

(** ** The counter *)

Lemma wrap_int_small z : - 2 ^ 63 ≤ z < 2 ^ 63 → wrap_int z = z.
Proof. intros H. unfold wrap_int. rewrite Z.mod_small; lia. Qed.

Lemma wrap_int_succ z : wrap_int (wrap_int z + 1) = wrap_int (z + 1).
Proof.
  unfold wrap_int.
  replace ((z + 2 ^ 63) mod 2 ^ 64 - 2 ^ 63 + 1 + 2 ^ 63)
    with ((z + 2 ^ 63) mod 2 ^ 64 + 1) by lia.
  rewrite Zplus_mod_idemp_l. f_equal. f_equal. lia.
Qed.

Lemma updates_cons clock old src rest :
  updates lib up clock old (src :: rest)
  = ((if is_update (verdict_of lib up clock old src) then 1 else 0)
     + updates lib up clock old rest)%nat.
Proof.
  unfold updates. rewrite filter_cons.
  destruct (is_update (verdict_of lib up clock old src));
    destruct (decide _); simpl; congruence.
Qed.

(** The counter is the number of applications that took the update path
    (on a 64-bit [int]). *)
Lemma for_each_changes clock old sources st st' c :
  for_each lib up clock old sources st = Continue st' →
  changesCount st = wrap_int c →
  changesCount st' = wrap_int (c + Z.of_nat (updates lib up clock old sources)).
Proof.
  revert st c. induction sources as [|src rest IH]; intros st c; simpl.
  - intros [= <-] ->. f_equal. unfold updates; simpl. lia.
  - destruct (loop_body lib up clock old src st) as [st1|] eqn:E; [|done].
    intros Hrest Hc. rewrite updates_cons.
    apply loop_body_spec in E as (_ & _ & Hcount & _).
    destruct (is_update (verdict_of lib up clock old src)).
    + rewrite (IH st1 (c + 1) Hrest).
      * f_equal. lia.
      * rewrite Hcount, Hc. apply wrap_int_succ.
    + rewrite (IH st1 c Hrest); [f_equal; lia | congruence].
Qed.

Lemma updates_le clock old sources :
  (updates lib up clock old sources ≤ length sources)%nat.
Proof. unfold updates. apply length_filter. Qed.

Lemma updates_zero clock old sources src :
  updates lib up clock old sources = 0%nat →
  src ∈ sources →
  is_update (verdict_of lib up clock old src) = false.
Proof.
  unfold updates. intros Hlen Hin.
  destruct (is_update (verdict_of lib up clock old src)) eqn:E; [|done].
  assert (src ∈ filter (λ src, is_update (verdict_of lib up clock old src) = true)
            sources) as Hf by (by apply list_elem_of_filter).
  apply length_zero_iff_nil in Hlen. rewrite Hlen in Hf.
  by apply elem_of_nil in Hf.
Qed.

(** ** The end of a run *)

Lemma main_finished clock sources file st saved file' :
  main lib up clock sources file = (Finished st saved, file') →
  for_each lib up clock (loadCatalog file) sources (initial_state clock) = Continue st
  ∧ saved = (Z.ltb 0 (changesCount st)
             || Z.eqb (Z.of_nat (size (Apps (loadCatalog file)))) 0)%bool
  ∧ file' = (if saved then saveCatalog (newCatalog st) else file).
Proof.
  unfold main. fold (initial_state clock).
  destruct (for_each _ _ _ _ _ _) as [st1|] eqn:Hloop; [|done].
  destruct (_ || _)%bool eqn:Hsave; intros [= <- <- <-]; by rewrite Hsave.
Qed.

Lemma main_panicked clock sources file msg st file' :
  main lib up clock sources file = (Panicked msg st, file') → file' = file.
Proof.
  unfold main. destruct (for_each _ _ _ _ _ _) as [st1|]; [|congruence].
  by destruct (_ || _)%bool.
Qed.

Lemma final_entry clock sources file st saved file' src :
  NoDup (ID <$> sources) →
  src ∈ sources →
  main lib up clock sources file = (Finished st saved, file') →
  Apps (newCatalog st) !! ID src
    = entry_after (Apps (loadCatalog file) !! ID src) None
        (verdict_of lib up clock (loadCatalog file) src).
Proof.
  intros Hnd Hin Hmain. apply main_finished in Hmain as (Hloop & _).
  by rewrite (for_each_in _ _ _ _ _ _ Hnd Hin Hloop).
Qed.

Lemma final_entry_absent clock sources file st saved file' id :
  id ∉ ID <$> sources →
  main lib up clock sources file = (Finished st saved, file') →
  Apps (newCatalog st) !! id = None.
Proof.
  intros Hid Hmain. apply main_finished in Hmain as (Hloop & _).
  by rewrite (for_each_notin _ _ _ _ _ _ Hloop Hid).
Qed.

End Facts.

(** * The reconciliation rules *)

(** ** Skip on an unchanged version *)

(** C1. For an application whose strategy is not direct_static, when a prior
    entry exists and its version equals the version the strategy resolves,
    the iteration makes the strategy's calls only, none of them a download,
    and the new catalog maps the application's ID to the prior entry itself,
    every field as it was. *)
Theorem unchanged_version_copies_prior
    lib up clock sources file src prior ver url size evs st saved file' :
  NoDup (ID <$> sources) →
  src ∈ sources →
  Strategy src ≠ "direct_static" →
  Apps (loadCatalog file) !! ID src = Some prior →
  checkStrategy lib up clock src = (evs, Ok (ver, url, size)) →
  CatalogApp.Version prior = ver →
  main lib up clock sources file = (Finished st saved, file') →
  Forall (λ e, is_download e = false) evs
  ∧ (∀ st1, loop_body lib up clock (loadCatalog file) src st1
            = Continue (store (ID src) prior (performed evs st1)))
  ∧ Apps (newCatalog st) !! ID src = Some prior.
Proof.
  intros Hnd Hin Hs Hprior Hcheck Hver Hmain.
  pose proof (decide_app_skip_version lib up clock src prior ver url size evs
                Hcheck Hs Hver) as Hdec.
  split; [|split].
  - pose proof (quiet_checkStrategy lib up clock src) as Hq.
    unfold quiet in Hq. by rewrite Hcheck in Hq.
  - intros st1. rewrite loop_body_decide, Hprior, Hdec. done.
  - rewrite (final_entry lib up clock sources file st saved file' src Hnd Hin Hmain).
    unfold verdict_of. by rewrite Hprior, Hdec.
Qed.

Lemma unchanged_version_copies_prior_witness :
  let file := Demo.catalog_file [("tool", Demo.tool_prior)] in
  let run := main Demo.lib Demo.up Demo.clock [Demo.head_app] file in
  Forall (λ e, is_download e = false) (trace (final_state run))
  ∧ Apps (newCatalog (final_state run)) !! "tool" = Some Demo.tool_prior.
Proof.
  intros file run.
  destruct (unchanged_version_copies_prior Demo.lib Demo.up Demo.clock
              [Demo.head_app] file Demo.head_app Demo.tool_prior
              "2.0" "https://example.org/v2.0/tool.tar.gz" (-1)
              (trace (final_state run)) (final_state run) false file)
    as (Hquiet & _ & Hentry).
  - apply NoDup_singleton.
  - apply list_elem_of_here.
  - discriminate.
  - vm_compute. reflexivity.
  - vm_compute. reflexivity.
  - reflexivity.
  - vm_compute. reflexivity.
  - split; [exact Hquiet | exact Hentry].
Defined.

(** ** Carry forward on failure *)

(** C2. When the strategy returns an error, or the download of the resolved
    URL does, the new catalog maps the application's ID to the prior entry
    when there is one and has no entry for it otherwise; the iteration does
    not stop the loop, which goes on with the next application, and it
    stores nothing but the prior entry. *)
Theorem failure_carries_prior_forward
    lib up clock sources file src st saved file' :
  NoDup (ID <$> sources) →
  src ∈ sources →
  main lib up clock sources file = (Finished st saved, file') →
  (∃ evs e, checkStrategy lib up clock src = (evs, Err e))
  ∨ (∃ evs ver url size evs' e,
       checkStrategy lib up clock src = (evs, Ok (ver, url, size))
       ∧ downloadAndHash lib up url = (evs', Err e)) →
  Apps (newCatalog st) !! ID src = Apps (loadCatalog file) !! ID src
  ∧ ∀ st1 rest, ∃ st2,
      for_each lib up clock (loadCatalog file) (src :: rest) st1
      = for_each lib up clock (loadCatalog file) rest st2
      ∧ changesCount st2 = changesCount st1
      ∧ Apps (newCatalog st2)
        = match Apps (loadCatalog file) !! ID src with
          | Some old => <[ID src := old]> (Apps (newCatalog st1))
          | None => Apps (newCatalog st1)
          end.
Proof.
  intros Hnd Hin Hmain Hfail.
  assert (∃ evs, decide_app lib up clock (Apps (loadCatalog file) !! ID src) src
                 = (evs, VKeep)) as [evs Hdec].
  { destruct Hfail as [(evs & e & Hc) | (evs & ver & url & size & evs' & e & Hc & Hd)].
    - exists evs. by apply decide_app_strategy_err with e.
    - destruct (decide_app_download_err lib up clock
                  (Apps (loadCatalog file) !! ID src) src ver url size evs evs' e
                  Hc Hd); eauto. }
  split.
  - rewrite (final_entry lib up clock sources file st saved file' src Hnd Hin Hmain).
    unfold verdict_of. rewrite Hdec; simpl.
    by destruct (Apps (loadCatalog file) !! ID src).
  - intros st1 rest. simpl. rewrite loop_body_decide, Hdec.
    unfold apply_verdict; simpl.
    destruct (Apps (loadCatalog file) !! ID src); eauto.
Qed.

Lemma failure_carries_prior_forward_witness :
  let file := Demo.catalog_file [("gone", Demo.gone_prior)] in
  let run := main Demo.lib Demo.up Demo.clock [Demo.github_gone] file in
  Apps (newCatalog (final_state run)) !! "gone" = Some Demo.gone_prior.
Proof.
  intros file run.
  destruct (failure_carries_prior_forward Demo.lib Demo.up Demo.clock
              [Demo.github_gone] file Demo.github_gone
              (final_state run) false file) as (Hentry & _).
  - apply NoDup_singleton.
  - apply list_elem_of_here.
  - vm_compute. reflexivity.
  - left. eexists _, _. vm_compute. reflexivity.
  - exact Hentry.
Defined.

(** ** Static links: skip on an unchanged checksum *)

(** C3. For a direct_static application with a prior entry, when the
    download succeeds and its checksum equals the prior entry's, the new
    catalog holds the prior entry unchanged: its version is the date stored
    before, whatever today's date is. *)
Theorem static_same_checksum_keeps_prior
    lib up clock sources file src prior evs checksum size st saved file' :
  NoDup (ID <$> sources) →
  src ∈ sources →
  Strategy src = "direct_static" →
  Apps (loadCatalog file) !! ID src = Some prior →
  downloadAndHash lib up (config src "url") = (evs, Ok (checksum, size)) →
  CatalogApp.Checksum prior = checksum →
  main lib up clock sources file = (Finished st saved, file') →
  Apps (newCatalog st) !! ID src = Some prior
  ∧ (∀ entry, Apps (newCatalog st) !! ID src = Some entry →
              CatalogApp.Version entry = CatalogApp.Version prior)
  ∧ (∀ st1, loop_body lib up clock (loadCatalog file) src st1
            = Continue (store (ID src) prior (performed evs st1))).
Proof.
  intros Hnd Hin Hs Hprior Hd Hsum Hmain.
  pose proof (decide_app_static_same lib up clock src prior evs checksum size
                Hs Hd Hsum) as Hdec.
  assert (Apps (newCatalog st) !! ID src = Some prior) as Hentry.
  { rewrite (final_entry lib up clock sources file st saved file' src Hnd Hin Hmain).
    unfold verdict_of. by rewrite Hprior, Hdec. }
  split; [done|split].
  - intros entry. rewrite Hentry. by intros [= <-].
  - intros st1. by rewrite loop_body_decide, Hprior, Hdec.
Qed.

Lemma static_same_checksum_keeps_prior_witness :
  let file := Demo.catalog_file [("chrome", Demo.chrome_prior)] in
  let run := main Demo.lib Demo.up Demo.clock [Demo.chrome] file in
  Apps (newCatalog (final_state run)) !! "chrome" = Some Demo.chrome_prior
  ∧ CatalogApp.Version Demo.chrome_prior ≠ Today Demo.clock.
Proof.
  intros file run.
  destruct (static_same_checksum_keeps_prior Demo.lib Demo.up Demo.clock
              [Demo.chrome] file Demo.chrome Demo.chrome_prior
              [EvGet "https://example.org/chrome.deb"] "chrome-bytes" 12
              (final_state run) false file) as (Hentry & _).
  - apply NoDup_singleton.
  - apply list_elem_of_here.
  - reflexivity.
  - vm_compute. reflexivity.
  - vm_compute. reflexivity.
  - reflexivity.
  - vm_compute. reflexivity.
  - split; [exact Hentry | discriminate].
Defined.

(** ** Where the metadata of an entry comes from *)

(** C4, as stated, fails: a skipped application keeps the entry of the old
    catalog, metadata included.  Here the descriptor is named "Chrome", the
    prior entry "Chromium", and the static link's content is unchanged. *)
Lemma skipped_entry_keeps_old_metadata :
  ¬ (∀ lib up clock sources file st saved file' src entry,
       NoDup (ID <$> sources) →
       src ∈ sources →
       main lib up clock sources file = (Finished st saved, file') →
       Apps (newCatalog st) !! ID src = Some entry →
       entry_metadata entry = source_metadata src).
Proof.
  intros H.
  pose (file := Demo.catalog_file [("chrome", Demo.chrome_prior)]).
  pose (run := main Demo.lib Demo.up Demo.clock [Demo.chrome] file).
  specialize (H Demo.lib Demo.up Demo.clock [Demo.chrome] file
                (final_state run) false file Demo.chrome Demo.chrome_prior).
  assert (entry_metadata Demo.chrome_prior = source_metadata Demo.chrome) as Habs.
  { apply H.
    - apply NoDup_singleton.
    - apply list_elem_of_here.
    - vm_compute. reflexivity.
    - vm_compute. reflexivity. }
  discriminate Habs.
Qed.

(** C4, amended. An application that takes the update path gets an entry
    whose ID, name, description, icon reference, package name and install
    type are those of the current source descriptor; an application that is
    skipped or carried forward has, in the new catalog, exactly what the old
    catalog had for it, with the metadata stored there. *)
Theorem metadata_from_source_on_update
    lib up clock sources file src st saved file' :
  NoDup (ID <$> sources) →
  src ∈ sources →
  main lib up clock sources file = (Finished st saved, file') →
  match verdict_of lib up clock (loadCatalog file) src with
  | VUpdate app =>
      Apps (newCatalog st) !! ID src = Some app
      ∧ CatalogApp.ID app = ID src
      ∧ entry_metadata app = source_metadata src
  | _ => Apps (newCatalog st) !! ID src = Apps (loadCatalog file) !! ID src
  end.
Proof.
  intros Hnd Hin Hmain.
  rewrite (final_entry lib up clock sources file st saved file' src Hnd Hin Hmain).
  pose proof (for_each_no_crash lib up clock (loadCatalog file) sources
                (initial_state clock) st src
                (proj1 (main_finished lib up clock sources file st saved file' Hmain))
                Hin) as Hnc.
  unfold verdict_of in *.
  destruct (decide_app lib up clock (Apps (loadCatalog file) !! ID src) src)
    as [evs [msg| |app]] eqn:Hdec; simpl in *.
  - by destruct (Hnc msg).
  - by destruct (Apps (loadCatalog file) !! ID src).
  - apply decide_app_update in Hdec
      as (evs1 & evs2 & ver & url & size & sum & dsz & _ & _ & _ & ->).
    done.
Qed.

Lemma metadata_from_source_on_update_witness :
  let file := Demo.catalog_file [("chrome", Demo.chrome_stale)] in
  let run := main Demo.lib Demo.up Demo.clock [Demo.chrome] file in
  ∃ app, Apps (newCatalog (final_state run)) !! "chrome" = Some app
         ∧ CatalogApp.Name app = "Chrome".
Proof.
  intros file run.
  pose proof (metadata_from_source_on_update Demo.lib Demo.up Demo.clock
                [Demo.chrome] file Demo.chrome (final_state run) true
                (Some (newCatalog (final_state run)))) as H.
  assert (verdict_of Demo.lib Demo.up Demo.clock (loadCatalog file) Demo.chrome
          = VUpdate (updated_entry Demo.chrome "2026.10.31"
                       "https://example.org/chrome.deb" "chrome-bytes" 0 12)) as Hv
    by (vm_compute; reflexivity).
  rewrite Hv in H.
  destruct H as (Hentry & _ & Hmeta).
  - apply NoDup_singleton.
  - apply list_elem_of_here.
  - vm_compute. reflexivity.
  - eexists. split; [exact Hentry | reflexivity].
Defined.

(** ** Entries of applications no longer in the source list *)

(** C5, as stated, fails: the new catalog starts empty and receives entries
    under the IDs of the source list only, so a run that writes drops every
    other entry.  Here the old catalog has "chrome" and "gone", the source
    list has "chrome" only, and the static link has new content. *)
Lemma write_drops_unlisted_entry :
  ¬ (∀ lib up clock sources file st file' id entry,
       main lib up clock sources file = (Finished st true, file') →
       Apps (loadCatalog file) !! id = Some entry →
       id ∉ ID <$> sources →
       ∃ catalog, file' = Some catalog ∧ Apps catalog !! id = Some entry).
Proof.
  intros H.
  pose (file := Demo.catalog_file
                  [("chrome", Demo.chrome_stale); ("gone", Demo.gone_prior)]).
  pose (run := main Demo.lib Demo.up Demo.clock [Demo.chrome] file).
  destruct (H Demo.lib Demo.up Demo.clock [Demo.chrome] file
              (final_state run) (Some (newCatalog (final_state run)))
              "gone" Demo.gone_prior) as (catalog & Hfile & Hgone).
  - vm_compute. reflexivity.
  - vm_compute. reflexivity.
  - intros Hin. apply list_elem_of_singleton in Hin. discriminate Hin.
  - injection Hfile as <-. vm_compute in Hgone. discriminate Hgone.
Qed.

(** C5, amended. An ID that is not in the source list has no entry in the
    new catalog, whatever the old catalog held for it; a run that writes
    thus persists a catalog without it, and the old entry stays in the file
    only when the run writes nothing. *)
Theorem unlisted_entry_outlives_only_unwritten_runs
    lib up clock sources file st saved file' id :
  id ∉ ID <$> sources →
  main lib up clock sources file = (Finished st saved, file') →
  Apps (newCatalog st) !! id = None
  ∧ (saved = true → ∃ catalog, file' = Some catalog ∧ Apps catalog !! id = None)
  ∧ (saved = false → file' = file).
Proof.
  intros Hid Hmain.
  pose proof (final_entry_absent lib up clock sources file st saved file' id
                Hid Hmain) as Habsent.
  apply main_finished in Hmain as (_ & _ & ->).
  split; [done|split].
  - intros ->. exists (newCatalog st). done.
  - by intros ->.
Qed.

Lemma unlisted_entry_outlives_only_unwritten_runs_witness :
  let file := Demo.catalog_file
                [("chrome", Demo.chrome_stale); ("gone", Demo.gone_prior)] in
  let run := main Demo.lib Demo.up Demo.clock [Demo.chrome] file in
  Apps (loadCatalog file) !! "gone" = Some Demo.gone_prior
  ∧ ∃ catalog, run.2 = Some catalog ∧ Apps catalog !! "gone" = None.
Proof.
  intros file run.
  destruct (unlisted_entry_outlives_only_unwritten_runs Demo.lib Demo.up
              Demo.clock [Demo.chrome] file (final_state run) true run.2 "gone")
    as (_ & Hsaved & _).
  - intros Hin. apply list_elem_of_singleton in Hin. discriminate Hin.
  - vm_compute. reflexivity.
  - split; [vm_compute; reflexivity | exact (Hsaved eq_refl)].
Defined.

(** ** When the catalog is written *)

(** C6. A run that reaches its end writes the new catalog exactly when the
    change counter is positive or the old catalog had no entry; otherwise
    the catalog file is the one the run started with.  The counter is
    incremented by the iterations that take the update path and by no
    other, so that it ends as the number of updated applications. *)
Theorem saved_iff_changed_or_no_prior
    lib up clock sources file st saved file' :
  main lib up clock sources file = (Finished st saved, file') →
  (saved = true ↔ 0 < changesCount st ∨ size (Apps (loadCatalog file)) = 0%nat)
  ∧ file' = (if saved then Some (newCatalog st) else file)
  ∧ (∀ src st1 st2,
       loop_body lib up clock (loadCatalog file) src st1 = Continue st2 →
       changesCount st2
       = if is_update (verdict_of lib up clock (loadCatalog file) src)
         then wrap_int (changesCount st1 + 1) else changesCount st1)
  ∧ changesCount st
    = wrap_int (Z.of_nat (updates lib up clock (loadCatalog file) sources)).
Proof.
  intros Hmain. apply main_finished in Hmain as (Hloop & Hsaved & Hfile).
  split; [|split; [done|split]].
  - rewrite Hsaved, orb_true_iff, Z.ltb_lt, Z.eqb_eq. lia.
  - intros src st1 st2 Hstep. by apply loop_body_spec in Hstep as (_ & _ & ? & _).
  - by rewrite (for_each_changes lib up clock _ _ _ _ 0 Hloop).
Qed.

Lemma saved_iff_changed_or_no_prior_witness :
  let file := Demo.catalog_file [("chrome", Demo.chrome_stale)] in
  let run := main Demo.lib Demo.up Demo.clock [Demo.chrome] file in
  changesCount (final_state run) = 1
  ∧ run.2 = Some (newCatalog (final_state run)).
Proof.
  intros file run.
  destruct (saved_iff_changed_or_no_prior Demo.lib Demo.up Demo.clock
              [Demo.chrome] file (final_state run) true run.2)
    as (_ & Hfile & _ & Hcount).
  - vm_compute. reflexivity.
  - split; [|exact Hfile].
    rewrite Hcount. vm_compute. reflexivity.
Defined.

(** ** Asset selection of the GitHub strategy *)

(** The asset chosen is the first, in upstream order, whose lower-cased
    name contains the filter as configured. *)
Lemma select_asset_first version assetFilter assets :
  select_asset version assetFilter assets
  = match List.find (asset_matches assetFilter) assets with
    | Some asset => ret (version, BrowserDownloadURL asset, asset_Size asset)
    | None => fail (ErrAssetNotFound assetFilter)
    end.
Proof.
  induction assets as [|a rest IH]; simpl; [done|].
  unfold asset_matches at 1. by destruct (strings.Contains _ _).
Qed.

Lemma lower_ascii_not_upper c : is_upper (strings.lower_ascii c) = false.
Proof.
  destruct c as [[] [] [] [] [] [] [] []]; vm_compute; reflexivity.
Qed.

Lemma ToLower_no_upper s : has_upper (strings.ToLower s) = false.
Proof.
  induction s as [|c r IH]; simpl; [done|].
  by rewrite lower_ascii_not_upper, IH.
Qed.

Lemma HasPrefix_no_upper s prefix :
  strings.HasPrefix s prefix = true → has_upper s = false →
  has_upper prefix = false.
Proof.
  revert s. induction prefix as [|p ps IH]; intros s; simpl; [done|].
  destruct s as [|c cs]; simpl; [done|].
  intros [Hc Hps]%andb_true_iff [Hu Hus]%orb_false_iff.
  apply Ascii.eqb_eq in Hc as <-. rewrite Hu; simpl. by apply (IH cs).
Qed.

Lemma Contains_no_upper s substr :
  strings.Contains s substr = true → has_upper s = false →
  has_upper substr = false.
Proof.
  induction s as [|c r IH]; simpl.
  - rewrite orb_false_r. intros H _. by apply (HasPrefix_no_upper "").
  - intros [H|H]%orb_true_iff Hu.
    + by apply (HasPrefix_no_upper (String c r)).
    + apply orb_false_iff in Hu as [_ Hu]. by apply IH.
Qed.

(** A filter with an upper-case letter selects no asset, whatever the
    release holds. *)
Lemma upper_case_filter_selects_nothing version assetFilter assets :
  has_upper assetFilter = true →
  select_asset version assetFilter assets = fail (ErrAssetNotFound assetFilter).
Proof.
  intros Hu. induction assets as [|a rest IH]; simpl; [done|].
  destruct (strings.Contains _ _) eqn:Hc; [|done].
  apply Contains_no_upper in Hc; [congruence|apply ToLower_no_upper].
Qed.

(** C7. The asset name is lower-cased before the comparison, the filter is
    not: with the filter "Linux" the asset "App-Linux.deb", whose name
    contains the filter as written, is not selected and resolution fails,
    while the filter "linux" selects it. *)
Theorem asset_filter_case_is_not_folded :
  strings.Contains "App-Linux.deb" "Linux" = true
  ∧ asset_matches "Linux" {| asset_Name := "App-Linux.deb";
                             BrowserDownloadURL := "https://example.org/app.deb";
                             asset_Size := 1000 |} = false
  ∧ (checkGithub Demo.lib Demo.up "acme/app" "Linux").2
    = Err (ErrAssetNotFound "Linux")
  ∧ (checkGithub Demo.lib Demo.up "acme/app" "linux").2
    = Ok ("1.2.0", "https://example.org/app.deb", 1000).
Proof. repeat split; vm_compute; reflexivity. Qed.

(** ** The size of an updated entry *)

(** A resolved [direct_url_head] version comes with the length that the
    HEAD response declares, [-1] when it declares none. *)
Lemma checkDirectHead_declared_size lib up startURL versionRegex evs ver url size :
  checkDirectHead lib up startURL versionRegex = (evs, Ok (ver, url, size)) →
  ∃ req resp,
    client_Do up req = inl resp
    ∧ URL req = startURL
    ∧ url = FinalURL resp
    ∧ size = match Header_ContentLength resp with Some n => n | None => -1 end.
Proof.
  unfold checkDirectHead, NewRequest.
  destruct (url_valid lib startURL); simpl; [|done].
  destruct (client_Do up _) as [resp|msg] eqn:Hdo; simpl; [|done].
  destruct (negb _); simpl; [done|].
  unfold MustCompile. destruct (regexp_valid lib versionRegex); simpl; [|done].
  destruct (Z.ltb _ _); simpl; [done|].
  intros [= <- <- <- <-]. eexists _, resp. by rewrite Hdo.
Qed.

(** The size stored on the update path: the downloaded length when the
    declared size is 0, the declared size otherwise. *)
Lemma updated_entry_size src ver url checksum size downloaded :
  CatalogApp.Size (updated_entry src ver url checksum size downloaded)
  = if Z.eqb size 0 then downloaded else size.
Proof. done. Qed.

(** The digest and the length come from the bytes of the download. *)
Lemma downloadAndHash_measures lib up url evs checksum size :
  downloadAndHash lib up url = (evs, Ok (checksum, size)) →
  ∃ resp,
    http_Get up url = inl resp
    ∧ checksum = sha256_hex lib (Body resp)
    ∧ size = Z.of_nat (length (Body resp)).
Proof.
  unfold downloadAndHash, Get, bind.
  destruct (http_Get up url) as [resp|msg]; [|done].
  destruct (negb _); [done|].
  destruct (BodyErr resp); [done|].
  intros [= <- <- <-]. by exists resp.
Qed.

(** Whatever the world, an updated [direct_url_head] entry whose HEAD
    responses declare no length has size [-1], not the downloaded length. *)
Lemma head_without_length_stores_minus_one lib up clock prior src evs app :
  Strategy src = "direct_url_head" →
  (∀ req resp, client_Do up req = inl resp → Header_ContentLength resp = None) →
  decide_app lib up clock prior src = (evs, VUpdate app) →
  CatalogApp.Size app = -1.
Proof.
  intros Hs Hnone Hdec.
  apply decide_app_update in Hdec
    as (evs1 & evs2 & ver & url & size & sum & dsz & Hc & _ & _ & ->).
  unfold checkStrategy in Hc. rewrite Hs in Hc. simpl in Hc.
  apply checkDirectHead_declared_size in Hc as (req & resp & Hdo & _ & _ & ->).
  rewrite updated_entry_size, (Hnone req resp Hdo). done.
Qed.

(** C8. A [direct_url_head] application whose HEAD response carries no
    Content-Length: the strategy declares the size [-1], the download
    streams 7 bytes through the digest, and the entry written to the
    catalog has size [-1]. *)
Theorem absent_length_header_is_not_backfilled :
  let run := main Demo.lib Demo.up Demo.clock [Demo.head_app] None in
  (checkStrategy Demo.lib Demo.up Demo.clock Demo.head_app).2
  = Ok ("2.0", "https://example.org/v2.0/tool.tar.gz", -1)
  ∧ (downloadAndHash Demo.lib Demo.up "https://example.org/v2.0/tool.tar.gz").2
    = Ok ("tarball", 7)
  ∧ run.2 = Some (newCatalog (final_state run))
  ∧ CatalogApp.Size <$> Apps (newCatalog (final_state run)) !! "tool" = Some (-1).
Proof. repeat split; vm_compute; reflexivity. Qed.

(** ** Running twice *)

(** Deciding again, at any later time, for an application whose entry is
    the one the first decision left: the verdict is to keep it. *)
Lemma decide_again lib up clock clock' prior src evs v :
  decide_app lib up clock prior src = (evs, v) →
  (∀ msg, v ≠ VCrash msg) →
  ∃ evs', decide_app lib up clock' (entry_after prior None v) src = (evs', VKeep).
Proof.
  unfold decide_app.
  destruct (String.eqb_spec (Strategy src) "direct_static") as [Hs|Hs].
  - rewrite !(checkStrategy_static _ _ _ _ Hs).
    destruct (downloadAndHash lib up (config src "url"))
      as [evs2 [[sum dsz]|e|msg]] eqn:Hd.
    + destruct prior as [p|]; simpl.
      * destruct (String.eqb_spec (CatalogApp.Checksum p) sum) as [Hsum|Hsum].
        -- intros [= <- <-] _. simpl. rewrite ?Hd.
           apply String.eqb_eq in Hsum. rewrite Hsum. eauto.
        -- intros [= <- <-] _. simpl. rewrite ?Hd. rewrite String.eqb_refl. eauto.
      * intros [= <- <-] _. simpl. rewrite ?Hd. rewrite String.eqb_refl. eauto.
    + rewrite andb_false_r. intros [= <- <-] _. simpl.
      rewrite ?andb_false_r, ?Hd. destruct prior; eauto.
    + rewrite andb_false_r. intros [= <- <-] Hv. by destruct (Hv msg).
  - rewrite <- (checkStrategy_clock lib up clock clock' src Hs).
    destruct (checkStrategy lib up clock src) as [evs1 [[[ver url] size]|e|msg]].
    + destruct prior as [p|]; simpl.
      * destruct (String.eqb_spec (CatalogApp.Version p) ver) as [Hver|Hver].
        -- intros [= <- <-] _. simpl. apply String.eqb_eq in Hver. rewrite Hver. eauto.
        -- destruct (downloadAndHash lib up url) as [evs2 [[sum dsz]|e|msg]] eqn:Hd.
           ++ intros [= <- <-] _. simpl. rewrite String.eqb_refl. eauto.
           ++ intros [= <- <-] _. simpl. apply String.eqb_neq in Hver. rewrite Hver, ?Hd. eauto.
           ++ intros [= <- <-] Hv. by destruct (Hv msg).
      * destruct (downloadAndHash lib up url) as [evs2 [[sum dsz]|e|msg]] eqn:Hd.
        ++ intros [= <- <-] _. simpl. rewrite String.eqb_refl. eauto.
        ++ intros [= <- <-] _. simpl. rewrite ?Hd. eauto.
        ++ intros [= <- <-] Hv. by destruct (Hv msg).
    + intros [= <- <-] _. simpl. destruct prior; eauto.
    + intros [= <- <-] Hv. by destruct (Hv msg).
Qed.

(** A loop in which every application is kept runs to its end and counts
    no change. *)
Lemma for_each_all_keep lib up clock P sources st :
  (∀ src, src ∈ sources → verdict_of lib up clock P src = VKeep) →
  ∃ st', for_each lib up clock P sources st = Continue st'
         ∧ changesCount st' = changesCount st.
Proof.
  revert st. induction sources as [|s rest IH]; intros st Hall; simpl; [eauto|].
  rewrite loop_body_decide. unfold apply_verdict.
  pose proof (Hall s (list_elem_of_here s rest)) as Hv.
  unfold verdict_of in Hv. rewrite Hv.
  assert (∀ src, src ∈ rest → verdict_of lib up clock P src = VKeep) as Hrest
    by (intros src Hin; apply Hall; by apply list_elem_of_further).
  destruct (Apps P !! ID s) as [o|].
  - destruct (IH (store (ID s) o (performed (decide_app lib up clock (Some o) s).1 st))
                Hrest) as (st' & Hfe & Hc). exists st'. by rewrite Hfe, Hc.
  - destruct (IH (performed (decide_app lib up clock None s).1 st) Hrest)
      as (st' & Hfe & Hc). exists st'. by rewrite Hfe, Hc.
Qed.

(** C9, amended. For a source list with pairwise distinct IDs, a second run
    with the same upstream responses, started from the catalog file the
    first run left, produces a new catalog with the same entries as the
    first and counts no change.  It writes the catalog file exactly when
    the file it loads has no entry (the rule for a first run applies again)
    and then writes a catalog without entries; in every other case it
    leaves the file as it is.  The two runs may see different dates. *)
Theorem second_run_is_a_no_op lib up clock clock' sources file st saved file' :
  NoDup (ID <$> sources) →
  Z.of_nat (length sources) < 2 ^ 63 →
  main lib up clock sources file = (Finished st saved, file') →
  ∃ st2 saved2 file2,
    main lib up clock' sources file' = (Finished st2 saved2, file2)
    ∧ Apps (newCatalog st2) = Apps (newCatalog st)
    ∧ changesCount st2 = 0
    ∧ (saved2 = true ↔ Apps (loadCatalog file') = ∅)
    ∧ (saved2 = false → file2 = file')
    ∧ (saved2 = true → Apps (newCatalog st2) = ∅).
Proof.
  intros Hnd Hlen Hmain.
  pose proof Hmain as (Hloop & Hsaved & Hfile)%main_finished.
  set (O := loadCatalog file) in *. set (P := loadCatalog file').
  (* what the second run finds for the listed applications *)
  assert (∀ src, src ∈ sources →
            Apps P !! ID src
            = entry_after (Apps O !! ID src) None (verdict_of lib up clock O src))
    as HP.
  { intros src Hin.
    pose proof (for_each_in lib up clock O sources _ st src Hnd Hin Hloop) as Hent.
    simpl in Hent. rewrite lookup_empty in Hent.
    destruct saved.
    - subst file' P. simpl. exact Hent.
    - subst file' P. fold O.
      symmetry in Hsaved. apply orb_false_iff in Hsaved as [Hc _].
      apply Z.ltb_ge in Hc.
      pose proof (for_each_changes lib up clock O sources _ st 0 Hloop eq_refl) as Hcnt.
      pose proof (updates_le lib up clock O sources) as Hle.
      rewrite wrap_int_small in Hcnt by lia.
      assert (updates lib up clock O sources = 0%nat) as Hzero by lia.
      pose proof (updates_zero lib up clock O sources src Hzero Hin) as Hnu.
      pose proof (for_each_no_crash lib up clock O sources _ st src Hloop Hin) as Hnc.
      destruct (verdict_of lib up clock O src) as [msg| |app]; simpl in *.
      + by destruct (Hnc msg).
      + by destruct (Apps O !! ID src).
      + done. }
  assert (∀ src, src ∈ sources → verdict_of lib up clock' P src = VKeep) as Hkeep.
  { intros src Hin.
    pose proof (for_each_no_crash lib up clock O sources _ st src Hloop Hin) as Hnc.
    unfold verdict_of in *.
    destruct (decide_app lib up clock (Apps O !! ID src) src) as [evs v] eqn:Hdec.
    destruct (decide_again lib up clock clock' _ src evs v Hdec Hnc) as [evs' Hdec'].
    rewrite (HP src Hin), Hdec; simpl. by rewrite Hdec'. }
  destruct (for_each_all_keep lib up clock' P sources (initial_state clock') Hkeep)
    as (st2 & Hloop2 & Hcount2).
  assert (∀ src, src ∈ sources →
            Apps (newCatalog st2) !! ID src = Apps P !! ID src) as Hsame.
  { intros src Hin.
    rewrite (for_each_in lib up clock' P sources _ st2 src Hnd Hin Hloop2).
    rewrite (Hkeep src Hin); simpl. rewrite lookup_empty.
    by destruct (Apps P !! ID src). }
  exists st2, (Z.eqb (Z.of_nat (size (Apps P))) 0),
    (if Z.eqb (Z.of_nat (size (Apps P))) 0 then Some (newCatalog st2) else file').
  assert (Z.eqb (Z.of_nat (size (Apps P))) 0 = true ↔ Apps P = ∅) as Hempty.
  { rewrite Z.eqb_eq, <- map_size_empty_iff. lia. }
  repeat split.
  - unfold main. fold P. fold (initial_state clock'). rewrite Hloop2, Hcount2.
    simpl. by destruct (Z.eqb (Z.of_nat (size (Apps P))) 0).
  - apply map_eq. intros id.
    destruct (decide (id ∈ ID <$> sources)) as [Hin|Hout].
    + apply list_elem_of_fmap in Hin as (src & -> & Hin).
      rewrite (Hsame src Hin), (HP src Hin).
      pose proof (for_each_in lib up clock O sources _ st src Hnd Hin Hloop) as Hent.
      simpl in Hent. by rewrite lookup_empty in Hent.
    + rewrite (for_each_notin lib up clock' P sources _ st2 id Hloop2 Hout).
      by rewrite (for_each_notin lib up clock O sources _ st id Hloop Hout).
  - done.
  - by apply Hempty.
  - by apply Hempty.
  - by intros ->.
  - intros Hz. apply Hempty in Hz. apply map_eq. intros id.
    rewrite lookup_empty.
    destruct (decide (id ∈ ID <$> sources)) as [Hin|Hout].
    + apply list_elem_of_fmap in Hin as (src & -> & Hin).
      by rewrite (Hsame src Hin), Hz, lookup_empty.
    + by rewrite (for_each_notin lib up clock' P sources _ st2 id Hloop2 Hout).
Qed.

Lemma second_run_is_a_no_op_witness :
  let sources := [Demo.chrome; Demo.head_app; Demo.github_gone] in
  let run := main Demo.lib Demo.up Demo.clock sources None in
  ∃ st2, main Demo.lib Demo.up Demo.next_day sources run.2
         = (Finished st2 false, run.2)
         ∧ Apps (newCatalog st2) = Apps (newCatalog (final_state run))
         ∧ changesCount st2 = 0.
Proof.
  intros sources run.
  destruct (second_run_is_a_no_op Demo.lib Demo.up Demo.clock Demo.next_day
              sources None (final_state run) true run.2)
    as (st2 & saved2 & file2 & Hmain2 & Hsame & Hcount & Hiff & Hkept & _).
  - apply (bool_decide_unpack _). vm_compute. exact I.
  - vm_compute. reflexivity.
  - vm_compute. reflexivity.
  - destruct saved2.
    + destruct Hiff as [Hempty _]. specialize (Hempty eq_refl).
      apply (f_equal (λ m, m !! "chrome")) in Hempty.
      vm_compute in Hempty. discriminate Hempty.
    + exists st2. rewrite (Hkept eq_refl) in Hmain2. auto.
Defined.

(** C9, as stated, fails on its last part: when the first run ends with an
    empty catalog (here the only upstream is unreachable and there is no
    catalog file yet), the second run loads an empty catalog and writes
    again, with a change count of zero. *)
Lemma second_run_rewrites_empty_catalog :
  ¬ (∀ lib up clock sources file st saved file' st2 saved2 file2,
       NoDup (ID <$> sources) →
       main lib up clock sources file = (Finished st saved, file') →
       main lib up clock sources file' = (Finished st2 saved2, file2) →
       Apps (newCatalog st2) = Apps (newCatalog st)
       ∧ changesCount st2 = 0
       ∧ saved2 = false).
Proof.
  intros H.
  pose (run := main Demo.lib Demo.up Demo.clock [Demo.github_gone] None).
  pose (again := main Demo.lib Demo.up Demo.clock [Demo.github_gone] run.2).
  destruct (H Demo.lib Demo.up Demo.clock [Demo.github_gone] None
              (final_state run) true run.2 (final_state again) true again.2)
    as (_ & _ & Hsaved).
  - apply NoDup_singleton.
  - vm_compute. reflexivity.
  - vm_compute. reflexivity.
  - discriminate Hsaved.
Qed.

(** Why the IDs have to be distinct: two descriptors sharing an ID resolve
    to different versions, the later one decides the entry, and the earlier
    one sees a version change on every run. *)
Remark duplicate_ids_change_on_every_run :
  let sources := [Demo.head_app; Demo.github_as_tool] in
  let run := main Demo.lib Demo.up Demo.clock sources None in
  let again := main Demo.lib Demo.up Demo.clock sources run.2 in
  Apps (newCatalog (final_state again)) = Apps (newCatalog (final_state run))
  ∧ changesCount (final_state again) = 1
  ∧ again.2 = Some (newCatalog (final_state again)).
Proof. repeat split; vm_compute; reflexivity. Qed.

(** ** A pattern that does not compile *)

(** One panicking application stops the loop, wherever it is in the list. *)
Lemma for_each_panics lib up clock old sources st src msg :
  src ∈ sources →
  verdict_of lib up clock old src = VCrash msg →
  ∃ msg' st', for_each lib up clock old sources st = Crash msg' st'.
Proof.
  intros Hin Hv. revert st.
  induction sources as [|s rest IH]; intros st; simpl.
  - by apply elem_of_nil in Hin.
  - destruct (loop_body lib up clock old s st) as [st1|msg1 st1] eqn:E; [|eauto].
    apply elem_of_cons in Hin as [<-|Hin]; [|by apply IH].
    rewrite loop_body_decide in E. unfold apply_verdict in E.
    unfold verdict_of in Hv. by rewrite Hv in E.
Qed.

(** C10, amended. For a direct_url_head descriptor whose pattern does not
    compile (and whose URL parses): once the HEAD request is answered with
    status 200, resolution panics and every run over a source list holding
    the descriptor is aborted, the catalog file left as it was; when the
    request fails or is answered with another status, resolution returns an
    error of that application before the pattern is compiled. *)
Theorem invalid_regex_panics_after_head lib up clock src :
  Strategy src = "direct_url_head" →
  regexp_valid lib (config src "regex") = false →
  url_valid lib (config src "url") = true →
  let req := {| Method := "HEAD"; URL := config src "url";
                Header := [("User-Agent",
                            "Mozilla/5.0 (X11; Linux x86_64) AppleWebKit/537.36")] |} in
  match client_Do up req with
  | inl resp =>
      if Z.eqb (StatusCode resp) 200
      then (∃ msg, checkStrategy lib up clock src = ([EvDo req], Panic msg))
           ∧ (∀ sources file, src ∈ sources →
                ∃ msg st, main lib up clock sources file = (Panicked msg st, file))
      else checkStrategy lib up clock src
           = ([EvDo req], Err (ErrStatusInvalid (StatusCode resp)))
  | inr m => checkStrategy lib up clock src = ([EvDo req], Err (ErrTransport m))
  end.
Proof.
  intros Hs Hre Hurl req.
  assert (checkStrategy lib up clock src
          = checkDirectHead lib up (config src "url") (config src "regex")) as ->.
  { unfold checkStrategy. by rewrite Hs. }
  unfold checkDirectHead, NewRequest. rewrite Hurl. simpl. fold req.
  destruct (client_Do up req) as [resp|m] eqn:Hdo; simpl; [|done].
  destruct (Z.eqb (StatusCode resp) 200) eqn:Hcode; simpl; [|done].
  unfold MustCompile. rewrite Hre. simpl.
  split; [eauto|].
  intros sources file Hin.
  assert (∃ msg, verdict_of lib up clock (loadCatalog file) src = VCrash msg)
    as [msg Hv].
  { unfold verdict_of, decide_app, checkStrategy. rewrite Hs. simpl.
    unfold checkDirectHead, NewRequest. rewrite Hurl. simpl. fold req.
    rewrite Hdo. simpl. rewrite Hcode. simpl.
    unfold MustCompile. rewrite Hre. simpl. eauto. }
  destruct (for_each_panics lib up clock (loadCatalog file) sources
              (initial_state clock) src msg Hin Hv) as (msg' & st' & Hloop).
  exists msg', st'. unfold main. fold (initial_state clock). by rewrite Hloop.
Qed.

Lemma invalid_regex_panics_after_head_witness :
  let file := Demo.catalog_file [("chrome", Demo.chrome_prior)] in
  ∃ msg st,
    main Demo.lib Demo.up Demo.clock [Demo.chrome; Demo.head_bad_regex] file
    = (Panicked msg st, file).
Proof.
  intros file.
  pose proof (invalid_regex_panics_after_head Demo.lib Demo.up Demo.clock
                Demo.head_bad_regex eq_refl eq_refl eq_refl) as H.
  simpl in H. destruct H as [_ H].
  apply H. apply list_elem_of_further, list_elem_of_here.
Defined.

(** C10, as stated, fails: the pattern is compiled after the HEAD request,
    so with an unreachable host the strategy returns the transport error
    and never reaches [regexp.MustCompile]. *)
Lemma invalid_regex_with_failed_head_is_an_error :
  ¬ (∀ lib up clock src,
       Strategy src = "direct_url_head" →
       regexp_valid lib (config src "regex") = false →
       ∃ evs msg, checkStrategy lib up clock src = (evs, Panic msg)).
Proof.
  intros H.
  destruct (H Demo.lib Demo.up Demo.clock Demo.head_bad_regex_down eq_refl eq_refl)
    as (evs & msg & Hpanic).
  vm_compute in Hpanic. discriminate Hpanic.
Qed.

(** * Further properties of the program *)

(** ** The calls a resolution makes *)

Lemma select_asset_trace version assetFilter assets :
  (select_asset version assetFilter assets).1 = [].
Proof.
  induction assets as [|a rest IH]; simpl; [done|].
  by destruct (strings.Contains _ _).
Qed.

Lemma downloadAndHash_trace lib up url :
  (downloadAndHash lib up url).1 = [EvGet url].
Proof.
  unfold downloadAndHash, Get, bind.
  destruct (http_Get up url) as [resp|msg]; [|done].
  destruct (negb _); [done|]. by destruct (BodyErr resp).
Qed.

Lemma checkGithub_trace lib up repo assetFilter :
  (checkGithub lib up repo assetFilter).1
  = if url_valid lib (URL (github_request up repo))
    then [EvDo (github_request up repo)] else [].
Proof.
  unfold checkGithub, NewRequest, github_request; simpl.
  destruct (url_valid lib _); simpl.
  - destruct (String.eqb (GITHUB_TOKEN up) ""); simpl.
    + destruct (client_Do up _) as [resp|msg]; simpl; [|done].
      destruct (negb _); simpl; [done|].
      destruct (json_decode_release _ _ _) as [rel|msg]; simpl; [|done].
      destruct (select_asset _ _ _) as [t r] eqn:E; simpl.
      pose proof (select_asset_trace (strings.TrimPrefix (TagName rel) "v")
                    assetFilter (Assets rel)) as Ht.
      rewrite E in Ht; simpl in Ht. by rewrite Ht.
    + destruct (client_Do up _) as [resp|msg]; simpl; [|done].
      destruct (negb _); simpl; [done|].
      destruct (json_decode_release _ _ _) as [rel|msg]; simpl; [|done].
      destruct (select_asset _ _ _) as [t r] eqn:E; simpl.
      pose proof (select_asset_trace (strings.TrimPrefix (TagName rel) "v")
                    assetFilter (Assets rel)) as Ht.
      rewrite E in Ht; simpl in Ht. by rewrite Ht.
  - by destruct (String.eqb (GITHUB_TOKEN up) "").
Qed.

Lemma checkDirectHead_trace lib up startURL versionRegex :
  (checkDirectHead lib up startURL versionRegex).1
  = if url_valid lib startURL then [EvDo (head_request startURL)] else [].
Proof.
  unfold checkDirectHead, NewRequest, head_request; simpl.
  destruct (url_valid lib _); simpl; [|done].
  destruct (client_Do up _) as [resp|msg]; simpl; [|done].
  destruct (negb _); simpl; [done|].
  unfold MustCompile. destruct (regexp_valid lib versionRegex); simpl; [|done].
  by destruct (Z.ltb _ _).
Qed.

(** X1. Resolving a version sends at most one request, never a download:
    a GET of the repository's latest release for github_release (with an
    Authorization header exactly when GITHUB_TOKEN is set), a HEAD of the
    configured URL with the browser User-Agent for direct_url_head, and
    nothing for direct_static and for an unknown strategy.  No request is
    sent for a URL that [http.NewRequest] rejects. *)
Theorem resolution_sends_one_request_at_most lib up clock src :
  (checkStrategy lib up clock src).1
  = if String.eqb (Strategy src) "github_release" then
      if url_valid lib (URL (github_request up (config src "repo")))
      then [EvDo (github_request up (config src "repo"))] else []
    else if String.eqb (Strategy src) "direct_url_head" then
      if url_valid lib (config src "url")
      then [EvDo (head_request (config src "url"))] else []
    else [].
Proof.
  unfold checkStrategy.
  destruct (String.eqb _ "github_release"); [apply checkGithub_trace|].
  destruct (String.eqb _ "direct_url_head"); [apply checkDirectHead_trace|].
  by destruct (String.eqb _ "direct_static").
Qed.

Lemma decide_app_trace lib up clock prior src :
  (decide_app lib up clock prior src).1
  = match checkStrategy lib up clock src with
    | (evs, Ok (onlineVer, onlineURL, _)) =>
        if version_unchanged prior src onlineVer then evs
        else (evs ++ [EvGet onlineURL])%list
    | (evs, _) => evs
    end.
Proof.
  unfold decide_app, version_unchanged.
  destruct (checkStrategy lib up clock src) as [evs [[[ver url] size]|e|msg]];
    [|done..].
  pose proof (downloadAndHash_trace lib up url) as Ht.
  destruct prior as [p|]; simpl.
  - destruct (negb _ && _)%bool; simpl; [done|].
    destruct (downloadAndHash lib up url) as [evs' [[sum dsz]|e|msg]];
      simpl in *; subst evs'; try done.
    by destruct (_ && _)%bool.
  - destruct (downloadAndHash lib up url) as [evs' [[sum dsz]|e|msg]];
      simpl in *; subst evs'; try done.
    by destruct (_ && _)%bool.
Qed.

Lemma loop_body_trace lib up clock old src st :
  trace (flow_state (loop_body lib up clock old src st))
  = (trace st ++ app_events lib up clock old src)%list.
Proof.
  rewrite loop_body_decide. unfold apply_verdict, app_events.
  destruct (decide_app lib up clock (Apps old !! ID src) src) as [evs [msg| |app]];
    simpl; [done| |done].
  by destruct (Apps old !! ID src).
Qed.

(** X2. The calls of one iteration: those of the resolution, followed by
    one download of the resolved URL exactly when the resolution succeeded
    and the skip test (prior entry, strategy other than direct_static, same
    version) failed.  Nothing is retried and nothing else is fetched. *)
Theorem iteration_downloads_once_unless_skipped lib up clock old src st :
  trace (flow_state (loop_body lib up clock old src st))
  = (trace st ++
     match checkStrategy lib up clock src with
     | (evs, Ok (onlineVer, onlineURL, _)) =>
         if version_unchanged (Apps old !! ID src) src onlineVer then evs
         else evs ++ [EvGet onlineURL]
     | (evs, _) => evs
     end)%list.
Proof.
  rewrite loop_body_trace. unfold app_events. by rewrite decide_app_trace.
Qed.

(** X3. A direct_static application is downloaded on every run, whatever
    the old catalog holds for it: its iteration makes exactly one call, the
    GET of the configured URL. *)
Theorem static_link_is_always_downloaded lib up clock old src st :
  Strategy src = "direct_static" →
  trace (flow_state (loop_body lib up clock old src st))
  = (trace st ++ [EvGet (config src "url")])%list.
Proof.
  intros Hs. rewrite loop_body_trace. unfold app_events.
  rewrite decide_app_trace, (checkStrategy_static lib up clock src Hs).
  unfold version_unchanged. rewrite Hs.
  by destruct (Apps old !! ID src).
Qed.

Lemma static_link_is_always_downloaded_witness :
  let old := loadCatalog (Demo.catalog_file [("chrome", Demo.chrome_prior)]) in
  trace (flow_state (loop_body Demo.lib Demo.up Demo.clock old Demo.chrome
                       (initial_state Demo.clock)))
  = [EvGet "https://example.org/chrome.deb"].
Proof.
  intros old.
  exact (static_link_is_always_downloaded Demo.lib Demo.up Demo.clock old
           Demo.chrome (initial_state Demo.clock) eq_refl).
Defined.

(** ** The order of the calls of a run *)

Lemma for_each_trace lib up clock old sources st st' :
  for_each lib up clock old sources st = Continue st' →
  trace st'
  = (trace st ++ concat (map (app_events lib up clock old) sources))%list.
Proof.
  revert st. induction sources as [|src rest IH]; intros st; simpl.
  - intros [= <-]. by rewrite app_nil_r.
  - pose proof (loop_body_trace lib up clock old src st) as Ht.
    destruct (loop_body lib up clock old src st) as [st1|] eqn:E; [|done].
    intros Hrest. rewrite (IH st1 Hrest). simpl in Ht.
    by rewrite Ht, app_assoc.
Qed.

Lemma for_each_crash_inv lib up clock old sources st msg st' :
  for_each lib up clock old sources st = Crash msg st' →
  ∃ pre src post,
    sources = (pre ++ src :: post)%list
    ∧ verdict_of lib up clock old src = VCrash msg
    ∧ (∀ s m, s ∈ pre → verdict_of lib up clock old s ≠ VCrash m)
    ∧ trace st'
      = (trace st ++ concat (map (app_events lib up clock old) pre)
           ++ app_events lib up clock old src)%list.
Proof.
  revert st. induction sources as [|s rest IH]; intros st; simpl; [done|].
  pose proof (loop_body_trace lib up clock old s st) as Ht.
  destruct (loop_body lib up clock old s st) as [st1|msg1 st1] eqn:E.
  - intros Hrest. destruct (IH st1 Hrest) as (pre & src & post & -> & Hv & Hpre & Htr).
    exists (s :: pre), src, post. repeat split; [done| |].
    + intros s0 m [->|Hin]%elem_of_cons; [|by apply Hpre].
      intros Hc. rewrite loop_body_decide in E. unfold apply_verdict in E.
      unfold verdict_of in Hc. by rewrite Hc in E.
    + simpl in *. rewrite Htr, Ht. by rewrite <- !app_assoc.
  - intros [= <- <-]. exists [], s, rest. repeat split.
    + by apply loop_body_crash in E.
    + intros s0 m Hin. by apply elem_of_nil in Hin.
    + simpl in *. by rewrite Ht.
Qed.

(** X4. A run that reaches its end has contacted the applications in the
    order of the source list, one after the other: its trace is the
    concatenation of the calls of each iteration. *)
Theorem run_contacts_applications_in_order
    lib up clock sources file st saved file' :
  main lib up clock sources file = (Finished st saved, file') →
  trace st
  = concat (map (app_events lib up clock (loadCatalog file)) sources).
Proof.
  intros (Hloop & _)%main_finished.
  by rewrite (for_each_trace lib up clock _ _ _ _ Hloop).
Qed.

Lemma run_contacts_applications_in_order_witness :
  let sources := [Demo.chrome; Demo.head_app; Demo.github_gone] in
  trace (final_state (main Demo.lib Demo.up Demo.clock sources None))
  = [EvGet "https://example.org/chrome.deb";
     EvDo (head_request "https://example.org/latest");
     EvGet "https://example.org/v2.0/tool.tar.gz";
     EvDo (github_request Demo.up "acme/gone")].
Proof.
  intros sources.
  rewrite (run_contacts_applications_in_order Demo.lib Demo.up Demo.clock
             sources None
             (final_state (main Demo.lib Demo.up Demo.clock sources None))
             true
             (main Demo.lib Demo.up Demo.clock sources None).2).
  - vm_compute. reflexivity.
  - vm_compute. reflexivity.
Defined.

(** X5. A run that panics stops at the first panicking application: the
    applications before it were processed in order, those after it were
    not contacted at all, and the catalog file is left as it was. *)
Theorem panic_stops_the_run_at_once lib up clock sources file msg st file' :
  main lib up clock sources file = (Panicked msg st, file') →
  file' = file
  ∧ ∃ pre src post,
      sources = (pre ++ src :: post)%list
      ∧ verdict_of lib up clock (loadCatalog file) src = VCrash msg
      ∧ (∀ s m, s ∈ pre → verdict_of lib up clock (loadCatalog file) s ≠ VCrash m)
      ∧ trace st
        = (concat (map (app_events lib up clock (loadCatalog file)) pre)
             ++ app_events lib up clock (loadCatalog file) src)%list.
Proof.
  intros Hmain. split; [by apply main_panicked in Hmain|].
  unfold main in Hmain. fold (initial_state clock) in Hmain.
  destruct (for_each _ _ _ _ _ _) as [st1|msg1 st1] eqn:Hloop.
  - by destruct (_ || _)%bool.
  - injection Hmain as -> -> _.
    by apply for_each_crash_inv in Hloop.
Qed.

Lemma panic_stops_the_run_at_once_witness :
  let sources := [Demo.chrome; Demo.head_bad_regex; Demo.github_app] in
  let run := main Demo.lib Demo.up Demo.clock sources None in
  run.2 = None
  ∧ trace (final_state run)
    = [EvGet "https://example.org/chrome.deb";
       EvDo (head_request "https://example.org/latest")].
Proof.
  intros sources run.
  destruct (panic_stops_the_run_at_once Demo.lib Demo.up Demo.clock sources None
              "regexp: Compile((): error parsing regexp"
              (final_state run) run.2) as (Hfile & _).
  - vm_compute. reflexivity.
  - split; [exact Hfile | vm_compute; reflexivity].
Defined.

(** ** Where the entries of the new catalog come from *)

Lemma loop_body_not_crash lib up clock old src st st' :
  loop_body lib up clock old src st = Continue st' →
  ∀ msg, verdict_of lib up clock old src ≠ VCrash msg.
Proof.
  intros E msg Hv. rewrite loop_body_decide in E.
  unfold apply_verdict in E. unfold verdict_of in Hv. by rewrite Hv in E.
Qed.

Lemma for_each_entry_origin lib up clock old sources st st' id entry :
  for_each lib up clock old sources st = Continue st' →
  Apps (newCatalog st') !! id = Some entry →
  Apps (newCatalog st) !! id = Some entry
  ∨ ∃ src, src ∈ sources ∧ ID src = id
           ∧ ((verdict_of lib up clock old src = VKeep
               ∧ Apps old !! id = Some entry)
              ∨ verdict_of lib up clock old src = VUpdate entry).
Proof.
  revert st. induction sources as [|s rest IH]; intros st; simpl.
  - intros [= <-]. by left.
  - destruct (loop_body lib up clock old s st) as [st1|] eqn:E; [|done].
    intros Hrest Hentry.
    destruct (IH st1 Hrest Hentry) as [Hst1 | (src & Hin & Hid & Hv)].
    + pose proof (loop_body_not_crash lib up clock old s st st1 E) as Hnc.
      apply loop_body_spec in E as (Hsame & Hother & _).
      destruct (decide (id = ID s)) as [->|Hne]; [|left; by rewrite <- Hother].
      rewrite Hsame in Hst1.
      destruct (verdict_of lib up clock old s) as [msg| |app] eqn:Hv; simpl in Hst1.
      * by destruct (Hnc msg).
      * destruct (Apps old !! ID s) as [o|] eqn:Hold; [|by left].
        right. exists s. split; [apply list_elem_of_here|].
        split; [done|]. left. split; [done|]. by rewrite <- Hst1.
      * right. exists s. split; [apply list_elem_of_here|].
        split; [done|]. right. by injection Hst1 as ->.
    + right. exists src. split; [by apply list_elem_of_further|]. done.
Qed.

(** X6. No entry of the new catalog is invented: each one is stored under
    the ID of a listed application and is either the entry the old catalog
    had under that ID, for an application that was skipped or carried
    forward, or the entry assembled on the update path. *)
Theorem new_entry_is_prior_or_update
    lib up clock sources file st saved file' id entry :
  main lib up clock sources file = (Finished st saved, file') →
  Apps (newCatalog st) !! id = Some entry →
  ∃ src, src ∈ sources ∧ ID src = id
         ∧ ((verdict_of lib up clock (loadCatalog file) src = VKeep
             ∧ Apps (loadCatalog file) !! id = Some entry)
            ∨ verdict_of lib up clock (loadCatalog file) src = VUpdate entry).
Proof.
  intros (Hloop & _)%main_finished Hentry.
  destruct (for_each_entry_origin lib up clock _ _ _ _ _ _ Hloop Hentry)
    as [Hinit|H]; [|done].
  simpl in Hinit. by rewrite lookup_empty in Hinit.
Qed.

Lemma new_entry_is_prior_or_update_witness :
  let file := Demo.catalog_file [("tool", Demo.tool_prior)] in
  let run := main Demo.lib Demo.up Demo.clock [Demo.chrome; Demo.head_app] file in
  ∃ src, src ∈ [Demo.chrome; Demo.head_app] ∧ ID src = "tool"
         ∧ Apps (loadCatalog file) !! "tool" = Some Demo.tool_prior.
Proof.
  intros file run.
  destruct (new_entry_is_prior_or_update Demo.lib Demo.up Demo.clock
              [Demo.chrome; Demo.head_app] file (final_state run) true run.2
              "tool" Demo.tool_prior) as (src & Hin & Hid & _).
  - vm_compute. reflexivity.
  - vm_compute. reflexivity.
  - exists src. repeat split; [exact Hin | exact Hid].
Defined.

Lemma verdict_update_inv lib up clock old src app :
  verdict_of lib up clock old src = VUpdate app →
  ∃ evs ver url size resp,
    checkStrategy lib up clock src = (evs, Ok (ver, url, size))
    ∧ http_Get up url = inl resp
    ∧ StatusCode resp = 200
    ∧ BodyErr resp = None
    ∧ app = updated_entry src ver url (sha256_hex lib (Body resp)) size
              (Z.of_nat (length (Body resp))).
Proof.
  unfold verdict_of.
  destruct (decide_app lib up clock (Apps old !! ID src) src) as [evs v] eqn:Hdec.
  simpl. intros ->.
  apply decide_app_update in Hdec
    as (evs1 & evs2 & ver & url & size & sum & dsz & Hc & Hd & _ & ->).
  exists evs1, ver, url, size.
  unfold downloadAndHash, Get, bind in Hd.
  destruct (http_Get up url) as [resp|msg]; [|done].
  destruct (Z.eqb (StatusCode resp) 200) eqn:Hcode; simpl in Hd; [|done].
  destruct (BodyErr resp) eqn:Herr; [done|].
  injection Hd as _ <- <-. exists resp.
  apply Z.eqb_eq in Hcode. done.
Qed.

(** X7. The loop keeps the catalog keyed by ID: when every entry of the old
    catalog is stored under the ID it carries, so is every entry of the new
    catalog. *)
Theorem new_catalog_is_keyed_by_id lib up clock sources file st saved file' :
  well_keyed (Apps (loadCatalog file)) →
  main lib up clock sources file = (Finished st saved, file') →
  well_keyed (Apps (newCatalog st)).
Proof.
  intros Hold (Hloop & _)%main_finished id entry Hentry.
  destruct (for_each_entry_origin lib up clock _ _ _ _ _ _ Hloop Hentry)
    as [Hinit | (src & _ & Hid & [[_ Hprior] | Hupd])].
  - simpl in Hinit. by rewrite lookup_empty in Hinit.
  - by apply Hold.
  - apply verdict_update_inv in Hupd as (? & ? & ? & ? & ? & _ & _ & _ & _ & ->).
    done.
Qed.

Lemma new_catalog_is_keyed_by_id_witness :
  let file := Demo.catalog_file [("tool", Demo.tool_prior)] in
  let run := main Demo.lib Demo.up Demo.clock [Demo.chrome; Demo.head_app] file in
  well_keyed (Apps (newCatalog (final_state run))).
Proof.
  intros file run.
  apply (new_catalog_is_keyed_by_id Demo.lib Demo.up Demo.clock
           [Demo.chrome; Demo.head_app] file (final_state run) true run.2).
  - intros id entry Hentry. simpl in Hentry.
    destruct (decide (id = "tool")) as [->|Hne].
    + vm_compute in Hentry. injection Hentry as <-. reflexivity.
    + rewrite insert_empty, lookup_singleton_ne in Hentry by done.
      discriminate Hentry.
  - vm_compute. reflexivity.
Defined.

(** X8. An entry of the new catalog that is not the old catalog's entry for
    its ID is complete and checked: it was assembled from a listed
    descriptor with that ID, its version and download URL are those the
    strategy resolved, and its checksum is the digest of a body that was
    served at that URL with status 200 and read to its end; its size is
    the length of that body when the strategy declared 0. *)
Theorem changed_entry_is_what_was_downloaded
    lib up clock sources file st saved file' id entry :
  main lib up clock sources file = (Finished st saved, file') →
  Apps (newCatalog st) !! id = Some entry →
  Apps (loadCatalog file) !! id ≠ Some entry →
  ∃ src evs ver url size resp,
    src ∈ sources ∧ ID src = id
    ∧ checkStrategy lib up clock src = (evs, Ok (ver, url, size))
    ∧ http_Get up url = inl resp
    ∧ StatusCode resp = 200
    ∧ BodyErr resp = None
    ∧ entry = updated_entry src ver url (sha256_hex lib (Body resp)) size
                (Z.of_nat (length (Body resp))).
Proof.
  intros (Hloop & _)%main_finished Hentry Hchanged.
  destruct (for_each_entry_origin lib up clock _ _ _ _ _ _ Hloop Hentry)
    as [Hinit | (src & Hin & Hid & [[_ Hprior] | Hupd])].
  - simpl in Hinit. by rewrite lookup_empty in Hinit.
  - done.
  - apply verdict_update_inv in Hupd
      as (evs & ver & url & size & resp & Hc & Hg & Hcode & Herr & ->).
    by exists src, evs, ver, url, size, resp.
Qed.

Lemma changed_entry_is_what_was_downloaded_witness :
  let file := Demo.catalog_file [("chrome", Demo.chrome_stale)] in
  let run := main Demo.lib Demo.up Demo.clock [Demo.chrome] file in
  ∃ entry resp,
    Apps (newCatalog (final_state run)) !! "chrome" = Some entry
    ∧ http_Get Demo.up (CatalogApp.DownloadURL entry) = inl resp
    ∧ CatalogApp.Checksum entry = Demo.digest (Body resp)
    ∧ CatalogApp.Size entry = 12.
Proof.
  intros file run.
  pose (entry := updated_entry Demo.chrome "2026.10.31"
                   "https://example.org/chrome.deb" "chrome-bytes" 0 12).
  destruct (changed_entry_is_what_was_downloaded Demo.lib Demo.up Demo.clock
              [Demo.chrome] file (final_state run) true run.2 "chrome" entry)
    as (src & evs & ver & url & size & resp & _ & _ & _ & _ & _ & _ & _).
  - vm_compute. reflexivity.
  - vm_compute. reflexivity.
  - vm_compute. discriminate.
  - exists entry, (Demo.response "chrome-bytes").
    repeat split; vm_compute; reflexivity.
Defined.

(** X9. An application that takes the update path really differs from its
    prior entry: in its version for a strategy with versions, in its
    checksum for direct_static. *)
Theorem update_differs_from_prior lib up clock old src prior app :
  Apps old !! ID src = Some prior →
  verdict_of lib up clock old src = VUpdate app →
  if String.eqb (Strategy src) "direct_static"
  then CatalogApp.Checksum app ≠ CatalogApp.Checksum prior
  else CatalogApp.Version app ≠ CatalogApp.Version prior.
Proof.
  unfold verdict_of, decide_app. intros ->. simpl.
  destruct (checkStrategy lib up clock src) as [evs [[[ver url] size]|e|msg]];
    [|done..].
  destruct (String.eqb (Strategy src) "direct_static"); simpl.
  - destruct (downloadAndHash lib up url) as [evs' [[sum dsz]|e|msg]]; [|done..].
    destruct (String.eqb_spec (CatalogApp.Checksum prior) sum) as [|Hne]; [done|].
    simpl. intros [= <-]. simpl. congruence.
  - destruct (String.eqb_spec (CatalogApp.Version prior) ver) as [|Hne]; [done|].
    destruct (downloadAndHash lib up url) as [evs' [[sum dsz]|e|msg]]; [|done..].
    simpl. intros [= <-]. simpl. congruence.
Qed.

Lemma update_differs_from_prior_witness :
  let old := loadCatalog (Demo.catalog_file [("chrome", Demo.chrome_stale)]) in
  ∃ app, verdict_of Demo.lib Demo.up Demo.clock old Demo.chrome = VUpdate app
         ∧ CatalogApp.Checksum app ≠ CatalogApp.Checksum Demo.chrome_stale.
Proof.
  intros old.
  pose (app := updated_entry Demo.chrome "2026.10.31"
                 "https://example.org/chrome.deb" "chrome-bytes" 0 12).
  assert (verdict_of Demo.lib Demo.up Demo.clock old Demo.chrome = VUpdate app)
    as Hv by (vm_compute; reflexivity).
  exists app. split; [exact Hv|].
  exact (update_differs_from_prior Demo.lib Demo.up Demo.clock old Demo.chrome
           Demo.chrome_stale app eq_refl Hv).
Defined.

(** ** Which IDs the new catalog holds *)

Lemma for_each_keeps_entries lib up clock old sources st st' id :
  for_each lib up clock old sources st = Continue st' →
  is_Some (Apps (newCatalog st) !! id) →
  is_Some (Apps (newCatalog st') !! id).
Proof.
  revert st. induction sources as [|s rest IH]; intros st; simpl.
  - by intros [= <-].
  - destruct (loop_body lib up clock old s st) as [st1|] eqn:E; [|done].
    intros Hrest Hsome. apply (IH st1 Hrest).
    apply loop_body_spec in E as (Hsame & Hother & _).
    destruct (decide (id = ID s)) as [->|Hne]; [|by rewrite Hother].
    rewrite Hsame.
    destruct (verdict_of lib up clock old s); simpl; [done| |done].
    by destruct (Apps old !! ID s).
Qed.

Lemma for_each_listed_prior lib up clock old sources st st' src :
  for_each lib up clock old sources st = Continue st' →
  src ∈ sources →
  is_Some (Apps old !! ID src) →
  is_Some (Apps (newCatalog st') !! ID src).
Proof.
  revert st. induction sources as [|s rest IH]; intros st; simpl.
  - intros _ Hin. by apply elem_of_nil in Hin.
  - destruct (loop_body lib up clock old s st) as [st1|] eqn:E; [|done].
    intros Hrest [->|Hin]%elem_of_cons Hprior; [|by apply (IH st1)].
    apply (for_each_keeps_entries lib up clock old rest st1 st' _ Hrest).
    pose proof (loop_body_not_crash lib up clock old s st st1 E) as Hnc.
    apply loop_body_spec in E as (Hsame & _). rewrite Hsame.
    destruct (verdict_of lib up clock old s) as [msg| |app]; simpl.
    + by destruct (Hnc msg).
    + by destruct Hprior as [o ->].
    + done.
Qed.

(** X10. The new catalog holds entries for listed applications only, and
    for every listed application that had an entry in the old catalog: no
    failure and no skip removes a listed application, also when several
    descriptors share an ID. *)
Theorem listed_prior_entries_survive lib up clock sources file st saved file' :
  main lib up clock sources file = (Finished st saved, file') →
  (∀ id, is_Some (Apps (newCatalog st) !! id) → id ∈ ID <$> sources)
  ∧ (∀ src, src ∈ sources →
            is_Some (Apps (loadCatalog file) !! ID src) →
            is_Some (Apps (newCatalog st) !! ID src)).
Proof.
  intros Hmain. split.
  - intros id Hsome. destruct (decide (id ∈ ID <$> sources)) as [|Hout]; [done|].
    rewrite (final_entry_absent lib up clock sources file st saved file' id
               Hout Hmain) in Hsome.
    by destruct Hsome.
  - intros src Hin Hprior. apply main_finished in Hmain as (Hloop & _).
    by apply (for_each_listed_prior lib up clock _ _ _ _ _ Hloop Hin).
Qed.

Lemma listed_prior_entries_survive_witness :
  let file := Demo.catalog_file [("gone", Demo.gone_prior)] in
  let run := main Demo.lib Demo.up Demo.clock [Demo.github_gone] file in
  is_Some (Apps (newCatalog (final_state run)) !! "gone").
Proof.
  intros file run.
  destruct (listed_prior_entries_survive Demo.lib Demo.up Demo.clock
              [Demo.github_gone] file (final_state run) false run.2) as (_ & H).
  - vm_compute. reflexivity.
  - apply (H Demo.github_gone).
    + apply list_elem_of_here.
    + exists Demo.gone_prior. vm_compute. reflexivity.
Defined.

(** ** What a run reads of the old catalog *)

Lemma for_each_frame lib up clock old old' sources st :
  (∀ src, src ∈ sources → Apps old !! ID src = Apps old' !! ID src) →
  for_each lib up clock old sources st = for_each lib up clock old' sources st.
Proof.
  revert st. induction sources as [|s rest IH]; intros st Hagree; simpl; [done|].
  rewrite !loop_body_decide, (Hagree s (list_elem_of_here s rest)).
  destruct (apply_verdict _ _ _ _); [|done].
  apply IH. intros src Hin. apply Hagree. by apply list_elem_of_further.
Qed.

(** X11. A run reads the old catalog at the IDs of the source list and
    nowhere else, apart from testing whether it is empty: two catalog files
    that agree on the listed IDs lead to the same new catalog, change count
    and calls, and to the same decision to write when both or neither are
    empty. *)
Theorem run_reads_listed_entries_only lib up clock sources file1 file2 :
  (∀ src, src ∈ sources →
          Apps (loadCatalog file1) !! ID src = Apps (loadCatalog file2) !! ID src) →
  final_state (main lib up clock sources file1)
  = final_state (main lib up clock sources file2)
  ∧ ((Apps (loadCatalog file1) = ∅ ↔ Apps (loadCatalog file2) = ∅) →
     (main lib up clock sources file1).1 = (main lib up clock sources file2).1).
Proof.
  intros Hagree. unfold main, final_state.
  rewrite (for_each_frame lib up clock _ _ sources _ Hagree).
  destruct (for_each _ _ _ _ _ _) as [st|msg st]; [|done].
  split.
  - by do 2 destruct (_ || _)%bool.
  - intros Hempty.
    assert (Z.eqb (Z.of_nat (size (Apps (loadCatalog file1)))) 0
            = Z.eqb (Z.of_nat (size (Apps (loadCatalog file2)))) 0) as ->.
    { apply eq_true_iff_eq. rewrite !Z.eqb_eq.
      rewrite <- !map_size_empty_iff in Hempty. lia. }
    by destruct (_ || _)%bool.
Qed.

Lemma run_reads_listed_entries_only_witness :
  let file1 := Demo.catalog_file
                 [("chrome", Demo.chrome_prior); ("gone", Demo.gone_prior)] in
  let file2 := Demo.catalog_file [("chrome", Demo.chrome_prior)] in
  (main Demo.lib Demo.up Demo.clock [Demo.chrome] file1).1
  = (main Demo.lib Demo.up Demo.clock [Demo.chrome] file2).1.
Proof.
  intros file1 file2.
  apply (run_reads_listed_entries_only Demo.lib Demo.up Demo.clock
           [Demo.chrome] file1 file2).
  - intros src Hin. apply list_elem_of_singleton in Hin. subst src.
    vm_compute. reflexivity.
  - split; intros H; apply (f_equal (λ m, m !! "chrome")) in H;
      vm_compute in H; discriminate H.
Defined.

(** ** Descriptors that share an ID *)

Lemma for_each_app lib up clock old l1 l2 st st' :
  for_each lib up clock old (l1 ++ l2) st = Continue st' →
  ∃ st1, for_each lib up clock old l1 st = Continue st1
         ∧ for_each lib up clock old l2 st1 = Continue st'.
Proof.
  revert st. induction l1 as [|s rest IH]; intros st; simpl; [eauto|].
  destruct (loop_body lib up clock old s st) as [st1|]; [|done].
  apply IH.
Qed.

(** X12. When several descriptors carry the same ID, the last of them in
    the source list decides the entry: if it takes the update path the new
    catalog holds its update, and if it is skipped or fails the new catalog
    holds the prior entry, whatever the earlier descriptors did. *)
Theorem last_descriptor_decides
    lib up clock sources file st saved file' pre src post :
  main lib up clock sources file = (Finished st saved, file') →
  sources = (pre ++ src :: post)%list →
  ID src ∉ ID <$> post →
  match verdict_of lib up clock (loadCatalog file) src with
  | VUpdate app => Apps (newCatalog st) !! ID src = Some app
  | _ => ∀ prior, Apps (loadCatalog file) !! ID src = Some prior →
                  Apps (newCatalog st) !! ID src = Some prior
  end.
Proof.
  intros (Hloop & _)%main_finished -> Hlast.
  apply for_each_app in Hloop as (st1 & _ & Hloop). simpl in Hloop.
  destruct (loop_body lib up clock (loadCatalog file) src st1) as [st2|] eqn:E;
    [|done].
  rewrite (for_each_notin lib up clock _ _ _ _ _ Hloop Hlast).
  pose proof (loop_body_not_crash lib up clock _ _ _ _ E) as Hnc.
  apply loop_body_spec in E as (Hsame & _). rewrite Hsame.
  destruct (verdict_of lib up clock (loadCatalog file) src) as [msg| |app]; simpl.
  - by destruct (Hnc msg).
  - by intros prior ->.
  - done.
Qed.

Lemma last_descriptor_decides_witness :
  let sources := [Demo.head_app; Demo.github_as_tool] in
  let run := main Demo.lib Demo.up Demo.clock sources None in
  CatalogApp.Version <$> Apps (newCatalog (final_state run)) !! "tool"
  = Some "1.2.0".
Proof.
  intros sources run.
  pose proof (last_descriptor_decides Demo.lib Demo.up Demo.clock sources None
                (final_state run) true run.2 [Demo.head_app]
                Demo.github_as_tool []) as H.
  assert (verdict_of Demo.lib Demo.up Demo.clock (loadCatalog None)
            Demo.github_as_tool
          = VUpdate (updated_entry Demo.github_as_tool "1.2.0"
                       "https://example.org/app.deb" "deb-bytes" 1000 9)) as Hv
    by (vm_compute; reflexivity).
  rewrite Hv in H. simpl ID in H. rewrite H.
  - reflexivity.
  - vm_compute. reflexivity.
  - reflexivity.
  - apply not_elem_of_nil.
Defined.

(** ** Writing and counting *)

Lemma updates_zero_all lib up clock old sources :
  (∀ src, src ∈ sources → is_update (verdict_of lib up clock old src) = false) →
  updates lib up clock old sources = 0%nat.
Proof.
  induction sources as [|s rest IH]; intros Hall; [done|].
  rewrite updates_cons, (Hall s (list_elem_of_here s rest)), IH; [done|].
  intros src Hin. apply Hall. by apply list_elem_of_further.
Qed.

(** X13. For a run that reaches its end, the write is skipped exactly when
    the old catalog has an entry and no listed application took the update
    path; the new catalog such a run discards holds nothing but entries of
    the old one. *)
Theorem write_skipped_iff_nothing_updated
    lib up clock sources file st saved file' :
  Z.of_nat (length sources) < 2 ^ 63 →
  main lib up clock sources file = (Finished st saved, file') →
  (saved = false
   ↔ Apps (loadCatalog file) ≠ ∅
     ∧ ∀ src, src ∈ sources →
         is_update (verdict_of lib up clock (loadCatalog file) src) = false)
  ∧ (saved = false → Apps (newCatalog st) ⊆ Apps (loadCatalog file)).
Proof.
  intros Hlen (Hloop & Hsaved & _)%main_finished.
  pose proof (for_each_changes lib up clock _ _ _ _ 0 Hloop eq_refl) as Hcnt.
  pose proof (updates_le lib up clock (loadCatalog file) sources) as Hle.
  rewrite wrap_int_small in Hcnt by lia.
  assert (saved = false
          ↔ Apps (loadCatalog file) ≠ ∅
            ∧ updates lib up clock (loadCatalog file) sources = 0%nat) as Hiff.
  { rewrite Hsaved, orb_false_iff, Z.ltb_ge, Z.eqb_neq.
    rewrite <- map_size_empty_iff. lia. }
  assert (saved = false →
          ∀ src, src ∈ sources →
            is_update (verdict_of lib up clock (loadCatalog file) src) = false)
    as Hnone.
  { intros [_ Hzero]%Hiff src Hin. by apply (updates_zero lib up clock _ sources). }
  split; [split|].
  - intros Hs. split; [by apply Hiff | by apply Hnone].
  - intros [Hne Hall]. apply Hiff. split; [done|].
    by apply updates_zero_all.
  - intros Hs. apply map_subseteq_spec. intros id entry Hentry.
    destruct (for_each_entry_origin lib up clock _ _ _ _ _ _ Hloop Hentry)
      as [Hinit | (src & Hin & Hid & [[_ Hprior] | Hupd])].
    + simpl in Hinit. by rewrite lookup_empty in Hinit.
    + done.
    + pose proof (Hnone Hs src Hin) as Hno. by rewrite Hupd in Hno.
Qed.

Lemma write_skipped_iff_nothing_updated_witness :
  let file := Demo.catalog_file
                [("chrome", Demo.chrome_prior); ("gone", Demo.gone_prior)] in
  let run := main Demo.lib Demo.up Demo.clock [Demo.chrome] file in
  run.2 = file
  ∧ Apps (newCatalog (final_state run)) ⊆ Apps (loadCatalog file).
Proof.
  intros file run.
  destruct (write_skipped_iff_nothing_updated Demo.lib Demo.up Demo.clock
              [Demo.chrome] file (final_state run) false run.2) as (_ & Hsub).
  - vm_compute. reflexivity.
  - vm_compute. reflexivity.
  - split; [vm_compute; reflexivity | exact (Hsub eq_refl)].
Defined.

Lemma downloads_app t1 t2 :
  downloads (t1 ++ t2) = (downloads t1 + downloads t2)%nat.
Proof. unfold downloads. by rewrite filter_app, length_app. Qed.

Lemma downloads_quiet t :
  Forall (λ e, is_download e = false) t → downloads t = 0%nat.
Proof.
  unfold downloads. induction 1 as [|e t He _ IH]; [done|].
  rewrite filter_cons. destruct (decide _); [congruence|done].
Qed.

Lemma app_events_downloads lib up clock old src :
  (downloads (app_events lib up clock old src) ≤ 1)%nat
  ∧ (is_update (verdict_of lib up clock old src) = true →
     downloads (app_events lib up clock old src) = 1%nat).
Proof.
  unfold app_events, verdict_of, decide_app.
  pose proof (quiet_checkStrategy lib up clock src) as Hq. unfold quiet in Hq.
  destruct (checkStrategy lib up clock src) as [evs [[[ver url] size]|e|msg]];
    simpl in Hq; apply downloads_quiet in Hq;
    [|simpl; rewrite Hq; split; [lia|done]..].
  pose proof (downloadAndHash_trace lib up url) as Ht.
  destruct (_ && _)%bool; simpl; [rewrite Hq; split; [lia|done]|].
  destruct (downloadAndHash lib up url) as [evs' [[sum dsz]|e|msg]];
    simpl in Ht; subst evs'.
  - destruct (_ && _)%bool; simpl; rewrite downloads_app, Hq; split; done.
  - simpl. rewrite downloads_app, Hq. split; done.
  - simpl. rewrite downloads_app, Hq. split; done.
Qed.

Lemma updates_le_downloads lib up clock old sources :
  (updates lib up clock old sources
   ≤ downloads (concat (map (app_events lib up clock old) sources))
   ≤ length sources)%nat.
Proof.
  induction sources as [|s rest IH]; [done|].
  rewrite updates_cons. simpl. rewrite downloads_app.
  destruct (app_events_downloads lib up clock old s) as [Hone Hupd].
  destruct (is_update (verdict_of lib up clock old s)); [rewrite Hupd by done|]; lia.
Qed.

(** X14. For a run that reaches its end, the change counter is the number
    of applications updated, every one of them was downloaded, and no
    application is downloaded more than once: the counter is at most the
    number of downloads, which is at most the length of the source list. *)
Theorem changes_bounded_by_downloads lib up clock sources file st saved file' :
  Z.of_nat (length sources) < 2 ^ 63 →
  main lib up clock sources file = (Finished st saved, file') →
  changesCount st = Z.of_nat (updates lib up clock (loadCatalog file) sources)
  ∧ (changesCount st ≤ Z.of_nat (downloads (trace st)))%Z
  ∧ (downloads (trace st) ≤ length sources)%nat.
Proof.
  intros Hlen (Hloop & _)%main_finished.
  pose proof (for_each_changes lib up clock _ _ _ _ 0 Hloop eq_refl) as Hcnt.
  pose proof (updates_le lib up clock (loadCatalog file) sources) as Hle.
  rewrite wrap_int_small in Hcnt by lia.
  rewrite (for_each_trace lib up clock _ _ _ _ Hloop). simpl.
  pose proof (updates_le_downloads lib up clock (loadCatalog file) sources).
  lia.
Qed.

Lemma changes_bounded_by_downloads_witness :
  let sources := [Demo.chrome; Demo.head_app; Demo.github_gone] in
  let file := Demo.catalog_file [("chrome", Demo.chrome_prior)] in
  let run := main Demo.lib Demo.up Demo.clock sources file in
  changesCount (final_state run) = 1
  ∧ downloads (trace (final_state run)) = 2%nat.
Proof.
  intros sources file run.
  destruct (changes_bounded_by_downloads Demo.lib Demo.up Demo.clock sources
              file (final_state run) true run.2) as (Hcount & _).
  - vm_compute. reflexivity.
  - vm_compute. reflexivity.
  - split; [rewrite Hcount|]; vm_compute; reflexivity.
Defined.

(** ** What a successful resolution returns *)

Lemma bind_ret_l {A B} (a : A) (f : A → IO B) : bind (ret a) f = f a.
Proof. unfold bind, ret. by destruct (f a). Qed.

Lemma select_asset_ok version assetFilter assets t ver url size :
  select_asset version assetFilter assets = (t, Ok (ver, url, size)) →
  ver = version
  ∧ ∃ pre asset post,
      assets = (pre ++ asset :: post)%list
      ∧ Forall (λ a, asset_matches assetFilter a = false) pre
      ∧ asset_matches assetFilter asset = true
      ∧ url = BrowserDownloadURL asset
      ∧ size = asset_Size asset.
Proof.
  induction assets as [|a rest IH]; simpl; [done|].
  destruct (strings.Contains _ _) eqn:Hm.
  - intros [= _ <- <- <-]. split; [done|]. by exists [], a, rest.
  - intros (-> & pre & asset & post & -> & Hpre & Has & -> & ->)%IH.
    split; [done|]. exists (a :: pre), asset, post.
    repeat split; [|done]. by constructor.
Qed.

Lemma TrimPrefix_v tag :
  tag = "v" +:+ strings.TrimPrefix tag "v"
  ∨ (tag = strings.TrimPrefix tag "v"
     ∧ strings.HasPrefix (strings.TrimPrefix tag "v") "v" = false).
Proof.
  unfold strings.TrimPrefix.
  destruct tag as [|c cs]; simpl; [by right|].
  destruct (Ascii.eqb_spec c "v") as [->|Hne]; simpl.
  - destruct cs; by left.
  - right. split; [done|]. simpl.
    destruct (Ascii.eqb_spec c "v"); done.
Qed.

(** X15. When the GitHub strategy succeeds, the release API answered the
    one request with status 200 and a body that decodes to a release; the
    asset returned is the first of the release, in upstream order, whose
    lower-cased name contains the filter, with its URL and its size; and
    the version is the tag without one leading "v", or the tag itself when
    it does not start with "v". *)
Theorem github_success_returns_first_matching_asset
    lib up repo assetFilter evs ver url size :
  checkGithub lib up repo assetFilter = (evs, Ok (ver, url, size)) →
  ∃ resp rel pre asset post,
    evs = [EvDo (github_request up repo)]
    ∧ client_Do up (github_request up repo) = inl resp
    ∧ StatusCode resp = 200
    ∧ json_decode_release lib (Body resp) (BodyErr resp) = inl rel
    ∧ Assets rel = (pre ++ asset :: post)%list
    ∧ Forall (λ a, asset_matches assetFilter a = false) pre
    ∧ asset_matches assetFilter asset = true
    ∧ url = BrowserDownloadURL asset
    ∧ size = asset_Size asset
    ∧ (TagName rel = "v" +:+ ver
       ∨ (TagName rel = ver ∧ strings.HasPrefix ver "v" = false)).
Proof.
  intros Hok.
  assert (∃ r, r = github_request up repo
               ∧ bind (Do up (Some r))
                   (λ resp,
                      if negb (Z.eqb (StatusCode resp) 200)
                      then fail (ErrGithubStatus (StatusCode resp))
                      else match json_decode_release lib (Body resp) (BodyErr resp) with
                           | inl rel =>
                               select_asset (strings.TrimPrefix (TagName rel) "v")
                                 assetFilter (Assets rel)
                           | inr msg => fail (ErrDecode msg)
                           end)
                 = (evs, Ok (ver, url, size)))
    as (r & -> & Hb).
  { revert Hok. unfold checkGithub, NewRequest, github_request.
    destruct (url_valid lib _).
    - destruct (String.eqb (GITHUB_TOKEN up) ""); simpl negb; cbv iota.
      + rewrite bind_ret_l. eauto.
      + unfold Header_Set. rewrite bind_ret_l. eauto.
    - by destruct (String.eqb (GITHUB_TOKEN up) ""). }
  clear Hok. unfold Do, bind in Hb.
  destruct (client_Do up (github_request up repo)) as [resp|msg]; [|done].
  destruct (Z.eqb (StatusCode resp) 200) eqn:Hcode; simpl in Hb; [|done].
  destruct (json_decode_release lib (Body resp) (BodyErr resp)) as [rel|msg]
    eqn:Hdec; [|done].
  pose proof (select_asset_trace (strings.TrimPrefix (TagName rel) "v")
                assetFilter (Assets rel)) as Hnil.
  destruct (select_asset _ _ _) as [t r] eqn:Hsel.
  simpl in Hnil. subst t. injection Hb as <- ->.
  apply select_asset_ok in Hsel
    as (-> & pre & asset & post & Has & Hpre & Hm & -> & ->).
  exists resp, rel, pre, asset, post.
  apply Z.eqb_eq in Hcode.
  repeat split; try done. apply TrimPrefix_v.
Qed.

Lemma github_success_returns_first_matching_asset_witness :
  ∃ resp rel,
    client_Do Demo2.up (github_request Demo2.up "acme/app") = inl resp
    ∧ json_decode_release Demo.lib (Body resp) (BodyErr resp) = inl rel
    ∧ TagName rel = "v1.2.0"
    ∧ Header (github_request Demo2.up "acme/app")
      = [("Authorization", "token s3cret")].
Proof.
  destruct (github_success_returns_first_matching_asset Demo.lib Demo2.up
              "acme/app" "linux"
              [EvDo (github_request Demo2.up "acme/app")]
              "1.2.0" "https://example.org/app.deb" 1000)
    as (resp & rel & pre & asset & post & _ & Hdo & _ & Hdec & _).
  - vm_compute. reflexivity.
  - exists resp, rel.
    split; [exact Hdo|]. split; [exact Hdec|]. split; [|reflexivity].
    vm_compute in Hdo. injection Hdo as <-.
    vm_compute in Hdec. injection Hdec as <-. reflexivity.
Defined.

(** X16. When the redirect strategy succeeds, the one HEAD request to the
    starting URL was answered with status 200, the pattern compiles, and
    the version is the first capture group of the pattern's match on the
    final URL, after redirects, which is also the download URL returned;
    the size is the length the response declares. *)
Theorem head_success_reads_the_final_url
    lib up startURL versionRegex evs ver url size :
  checkDirectHead lib up startURL versionRegex = (evs, Ok (ver, url, size)) →
  ∃ resp whole rest,
    evs = [EvDo (head_request startURL)]
    ∧ client_Do up (head_request startURL) = inl resp
    ∧ StatusCode resp = 200
    ∧ regexp_valid lib versionRegex = true
    ∧ FindStringSubmatch lib versionRegex (FinalURL resp) = whole :: ver :: rest
    ∧ url = FinalURL resp
    ∧ size = ContentLength resp.
Proof.
  unfold checkDirectHead, NewRequest. fold (head_request startURL).
  destruct (url_valid lib startURL); simpl; [|done].
  fold (head_request startURL).
  destruct (client_Do up (head_request startURL)) as [resp|msg]; simpl; [|done].
  destruct (Z.eqb (StatusCode resp) 200) eqn:Hcode; simpl; [|done].
  unfold MustCompile. destruct (regexp_valid lib versionRegex); simpl; [|done].
  destruct (FindStringSubmatch lib versionRegex (FinalURL resp))
    as [|whole [|first rest]] eqn:Hm; simpl; [done..|].
  destruct (Z.ltb _ 2) eqn:Hlt; [apply Z.ltb_lt in Hlt; simpl in Hlt; lia|].
  intros [= <- <- <- <-]. exists resp, whole, rest.
  apply Z.eqb_eq in Hcode. done.
Qed.

Lemma head_success_reads_the_final_url_witness :
  ∃ resp,
    client_Do Demo.up (head_request "https://example.org/latest") = inl resp
    ∧ FinalURL resp = "https://example.org/v2.0/tool.tar.gz"
    ∧ FindStringSubmatch Demo.lib "/v([0-9.]+)/" (FinalURL resp)
      = ["/v2.0/"; "2.0"].
Proof.
  destruct (head_success_reads_the_final_url Demo.lib Demo.up
              "https://example.org/latest" "/v([0-9.]+)/"
              [EvDo (head_request "https://example.org/latest")]
              "2.0" "https://example.org/v2.0/tool.tar.gz" (-1))
    as (resp & whole & rest & _ & Hdo & _ & _ & _ & Hurl & _).
  - vm_compute. reflexivity.
  - exists resp. split; [exact Hdo|]. split; [by rewrite <- Hurl|].
    rewrite <- Hurl. vm_compute. reflexivity.
Defined.

(** ** Descriptors the strategies cannot handle *)

Lemma crash_aborts_main lib up clock sources file src msg :
  src ∈ sources →
  verdict_of lib up clock (loadCatalog file) src = VCrash msg →
  ∃ msg' st, main lib up clock sources file = (Panicked msg' st, file).
Proof.
  intros Hin Hv.
  destruct (for_each_panics lib up clock (loadCatalog file) sources
              (initial_state clock) src msg Hin Hv) as (msg' & st' & Hloop).
  exists msg', st'. unfold main. fold (initial_state clock). by rewrite Hloop.
Qed.

(** X17. The error of [http.NewRequest] is dropped, so a github_release or
    direct_url_head descriptor whose request URL does not parse makes the
    resolution dereference a nil request: it panics before any call is
    made, and every run over a source list holding the descriptor is
    aborted with the catalog file left as it was. *)
Theorem unparsable_url_aborts_the_run lib up clock src :
  (Strategy src = "github_release"
   ∧ url_valid lib (URL (github_request up (config src "repo"))) = false)
  ∨ (Strategy src = "direct_url_head"
     ∧ url_valid lib (config src "url") = false) →
  checkStrategy lib up clock src = ([], Panic "nil pointer dereference")
  ∧ ∀ sources file, src ∈ sources →
      ∃ msg st, main lib up clock sources file = (Panicked msg st, file).
Proof.
  intros H.
  assert (checkStrategy lib up clock src = ([], Panic "nil pointer dereference"))
    as Hc.
  { unfold checkStrategy. destruct H as [[Hs Hurl] | [Hs Hurl]]; rewrite Hs; simpl.
    - unfold checkGithub, NewRequest. simpl in Hurl. rewrite Hurl.
      by destruct (String.eqb (GITHUB_TOKEN up) "").
    - unfold checkDirectHead, NewRequest. by rewrite Hurl. }
  split; [done|].
  intros sources file Hin.
  apply (crash_aborts_main lib up clock sources file src
           "nil pointer dereference" Hin).
  unfold verdict_of, decide_app. by rewrite Hc.
Qed.

Lemma unparsable_url_aborts_the_run_witness :
  let file := Demo.catalog_file [("chrome", Demo.chrome_prior)] in
  ∃ msg st,
    main Demo2.lib Demo.up Demo.clock [Demo.chrome; Demo2.head_bad_url] file
    = (Panicked msg st, file).
Proof.
  intros file.
  destruct (unparsable_url_aborts_the_run Demo2.lib Demo.up Demo.clock
              Demo2.head_bad_url) as (_ & H).
  - right. split; [reflexivity | vm_compute; reflexivity].
  - apply H. apply list_elem_of_further, list_elem_of_here.
Defined.

(** X18. A strategy name other than the three known ones touches nothing:
    the iteration makes no call, counts no change, and carries the prior
    entry forward when there is one. *)
Theorem unknown_strategy_keeps_prior lib up clock old src st :
  Strategy src ≠ "github_release" →
  Strategy src ≠ "direct_url_head" →
  Strategy src ≠ "direct_static" →
  ∃ st', loop_body lib up clock old src st = Continue st'
         ∧ trace st' = trace st
         ∧ changesCount st' = changesCount st
         ∧ Apps (newCatalog st')
           = match Apps old !! ID src with
             | Some prior => <[ID src := prior]> (Apps (newCatalog st))
             | None => Apps (newCatalog st)
             end.
Proof.
  intros H1%String.eqb_neq H2%String.eqb_neq H3%String.eqb_neq.
  unfold loop_body, checkStrategy. rewrite H1, H2, H3. simpl.
  destruct (Apps old !! ID src); eexists; (split; [reflexivity|]); simpl;
    by rewrite app_nil_r.
Qed.

Lemma unknown_strategy_keeps_prior_witness :
  let old := loadCatalog (Demo.catalog_file [("gone", Demo.gone_prior)]) in
  ∃ st', loop_body Demo.lib Demo.up Demo.clock old Demo2.typo
           (initial_state Demo.clock) = Continue st'
         ∧ trace st' = []
         ∧ Apps (newCatalog st') !! "gone" = Some Demo.gone_prior.
Proof.
  intros old.
  destruct (unknown_strategy_keeps_prior Demo.lib Demo.up Demo.clock old
              Demo2.typo (initial_state Demo.clock))
    as (st' & Hstep & Htrace & _ & Happs); [discriminate..|].
  exists st'. split; [exact Hstep|]. split; [exact Htrace|].
  rewrite Happs. vm_compute. reflexivity.
Defined.

(** ** Matching the asset name *)





(** ** What is written *)

Lemma for_each_LastUpdated lib up clock old sources st st' :
  for_each lib up clock old sources st = Continue st' →
  LastUpdated (newCatalog st') = LastUpdated (newCatalog st).
Proof.
  revert st. induction sources as [|s rest IH]; intros st; simpl.
  - by intros [= <-].
  - destruct (loop_body lib up clock old s st) as [st1|] eqn:E; [|done].
    intros Hrest. rewrite (IH _ Hrest).
    by apply loop_body_spec in E as (_ & _ & _ & _ & ?).
Qed.

(** X20. A run that writes replaces the catalog file by the new catalog as
    a whole, stamped with the time at which the run started, not the time
    of the write and not the timestamp of the old file. *)
Theorem written_catalog_is_stamped_at_start
    lib up clock sources file st file' :
  main lib up clock sources file = (Finished st true, file') →
  ∃ catalog, file' = Some catalog
             ∧ LastUpdated catalog = Now clock
             ∧ Apps catalog = Apps (newCatalog st).
Proof.
  intros (Hloop & _ & ->)%main_finished.
  exists (newCatalog st). split; [done|]. split; [|done].
  by rewrite (for_each_LastUpdated lib up clock _ _ _ _ Hloop).
Qed.

Lemma written_catalog_is_stamped_at_start_witness :
  let file := Demo.catalog_file [("chrome", Demo.chrome_stale)] in
  let run := main Demo.lib Demo.up Demo.next_day [Demo.chrome] file in
  LastUpdated <$> run.2 = Some 1793491200.
Proof.
  intros file run.
  destruct (written_catalog_is_stamped_at_start Demo.lib Demo.up Demo.next_day
              [Demo.chrome] file (final_state run) run.2)
    as (catalog & Hfile & Hstamp & _).
  - vm_compute. reflexivity.
  - rewrite Hfile. simpl. by rewrite Hstamp.
Defined.
